(** * Managed results of the job manager

    A shallow embedding of [qiskit_ibm/managed/managedresults.py]: the
    [ManagedResults] view over a job set, its five query methods, the
    experiment resolver [_get_result] and the result combiner
    [combine_results].

    Python objects live in a store addressed by locations, so that identity,
    aliasing and in-place mutation of [Result] objects, of their [results]
    lists and of the entries in those lists can be stated.  Methods are
    programs of a state-and-exception monad over that store. *)

From Stdlib Require Import ZArith String List Lia.
From stdpp Require Import base option list strings pretty gmap.

Local Open Scope nat_scope.
Set Warnings "-register-all".

(** ** Exceptions and outcomes *)

(** The exception classes the module can see.  [JobError cls msg] stands for
    [JobError] and every subclass of it ([cls] is the class name);
    [IBMQManagedResultDataNotAvailable] carries the [__cause__] set by
    [raise ... from err]. *)
Inductive exn : Type :=
| JobError (cls msg : string)
| IBMQJobManagerJobNotFound (msg : string)
| IBMQManagedResultDataNotAvailable (msg : string) (cause : option exn)
| IndexError (msg : string)
| AttributeError (msg : string)
| OtherError (cls msg : string).

(** [isinstance(err, JobError)], the test of [except JobError]. *)
Definition is_JobError (e : exn) : bool :=
  match e with JobError _ _ => true | _ => false end.

Definition message (e : exn) : string :=
  match e with
  | JobError _ m | IBMQJobManagerJobNotFound m
  | IBMQManagedResultDataNotAvailable m _ | IndexError m
  | AttributeError m | OtherError _ m => m
  end.

Definition cause (e : exn) : option exn :=
  match e with IBMQManagedResultDataNotAvailable _ c => c | _ => None end.

Inductive outcome (A : Type) : Type :=
| Return (a : A)
| Raise (e : exn).
Arguments Return {A} a.
Arguments Raise {A} e.

(** ** The object store *)

(** Locations are positions in the store. *)
Abbreviation loc := nat (only parsing).

Section Model.

(** The result payload is opaque to the wrapper: [Header] is everything a
    [Result] holds besides its [results] list, [Entry] the content of one
    per-experiment entry, [Value] what an accessor returns.  Circuits and
    schedules are opaque too. *)
Context {Header Entry Value QuantumCircuit Schedule : Type}.

(** A [Result] object refers to its [results] list, a list object refers to
    its items, an entry is a leaf. *)
Inductive obj : Type :=
| OResult (attrs : Header) (results : loc)
| OList (items : list loc)
| OEntry (content : Entry).

(** What the wrapper calls and does not define: [str()] of a circuit and of
    a schedule, used in messages, and the accessors of
    [qiskit.result.Result], each of which reads the [Result] object at a
    location of the store. *)
Class Externals : Type := {
  str_circuit : QuantumCircuit → string;
  str_schedule : Schedule → string;
  Result_data : list obj → loc → Z → outcome Value;
  Result_get_memory : list obj → loc → Z → outcome Value;
  Result_get_counts : list obj → loc → Z → outcome Value;
  Result_get_statevector : list obj → loc → Z → option Z → outcome Value;
  Result_get_unitary : list obj → loc → Z → option Z → outcome Value
}.
Context `{!Externals}.

(** [Union[str, QuantumCircuit, Schedule, int]] *)
Inductive Experiment : Type :=
| by_name (name : string)
| by_circuit (circuit : QuantumCircuit)
| by_schedule (schedule : Schedule)
| by_position (index : Z).

(** ['{}'.format(experiment)] *)
Definition format (experiment : Experiment) : string :=
  match experiment with
  | by_name s => s
  | by_circuit c => str_circuit c
  | by_schedule s => str_schedule s
  | by_position i => pretty i
  end.

(** Modelled from the spec: the job handle, of which only [fetch_result()]
    is consumed ([job.result()] in the source).  It yields the location of
    the job's stored [Result] or fails; a failure of the job layer is a
    [JobError]. *)
Record IBMQJob : Type := {
  job_id : string;
  result : outcome loc
}.

(** Modelled from the spec: the job set, consumed through
    [all_jobs_in_submission_order()] ([jobs()]) and
    [lookup(experiment_ref)] ([job(experiment)]), which returns a job handle
    or none together with the offset inside the job, or raises
    [IBMQJobManagerJobNotFound]. *)
Record ManagedJobSet : Type := {
  jobs : list IBMQJob;
  job : Experiment → outcome (option IBMQJob * Z)
}.

(** The attributes set by [__init__]; [_combined_results] starts as [None]. *)
Record ManagedResults : Type := {
  _job_set : ManagedJobSet;
  backend_name : string;
  success : bool;
  _combined_results : option loc
}.

Definition __init__ (job_set : ManagedJobSet) (backend_name : string)
    (success : bool) : ManagedResults :=
  {| _job_set := job_set; backend_name := backend_name;
     success := success; _combined_results := None |}.

(** The state a method runs in: the view itself, the store, and the log of
    the jobs whose [result()] was called. *)
Record world : Type := {
  view : ManagedResults;
  heap : list obj;
  fetched : list string
}.

(** ** The monad of methods *)

Definition M (A : Type) : Type := world → outcome A * world.

Definition ret {A} (a : A) : M A := λ w, (Return a, w).
Definition raise {A} (e : exn) : M A := λ w, (Raise e, w).
Definition bind {A B} (c : M A) (k : A → M B) : M B :=
  λ w, match c w with
       | (Return a, w') => k a w'
       | (Raise e, w') => (Raise e, w')
       end.
Definition gets {A} (f : world → A) : M A := λ w, (Return (f w), w).
Definition lift {A} (o : outcome A) : M A := λ w, (o, w).

Notation "'let*' x ':=' c 'in' k" := (bind c (λ x, k))
  (at level 10, x name, c at level 100, k at level 200).
Notation "'let*' ' p ':=' c 'in' k" :=
  (bind c (λ x, match x with p => k end))
  (at level 10, p pattern, c at level 100, k at level 200).
Notation "'do' c 'then' k" := (bind c (λ _, k))
  (at level 10, c at level 100, k at level 200).

(** [try: body except JobError as err: handler err]: only a [JobError] is
    caught, anything else propagates. *)
Definition try_except_JobError {A} (body : M A) (handler : exn → M A) : M A :=
  λ w, match body w with
       | (Raise err, w') =>
           if is_JobError err then handler err w' else (Raise err, w')
       | r => r
       end.

(** [for idx in idxs: body idx] *)
Fixpoint for_each (idxs : list nat) (body : nat → M unit) : M unit :=
  match idxs with
  | [] => ret tt
  | idx :: rest => do body idx then for_each rest body
  end.

(** [range(a, b)] *)
Definition range (a b : nat) : list nat := seq a (b - a).

(** ** Primitive operations on objects *)

(** [job.result()]: the call is logged, then the job's stored result (or
    its failure) comes back. *)
Definition call_result (j : IBMQJob) : M loc :=
  λ w, (result j,
        {| view := view w; heap := heap w;
           fetched := fetched w ++ [job_id j] |}).

(** [jobs[idx]] for a non-negative [idx]. *)
Definition getitem (js : list IBMQJob) (idx : nat) : M IBMQJob :=
  match js !! idx with
  | Some j => ret j
  | None => raise (IndexError "list index out of range")
  end.

(** [r.results]: the list object a [Result] refers to.  A location that
    holds no [Result] has no such attribute. *)
Definition getattr_results (r : loc) : M loc :=
  λ w, match heap w !! r with
       | Some (OResult _ l) => (Return l, w)
       | _ => (Raise (AttributeError "results"), w)
       end.

Definition set_heap (h : list obj) : M unit :=
  λ w, (Return tt, {| view := view w; heap := h; fetched := fetched w |}).

(** [dst.extend(src)]: the references held by [src] are appended to the
    list object [dst], in place; no entry is copied. *)
Definition list_extend (dst src : loc) : M unit :=
  λ w, match heap w !! src, heap w !! dst with
       | Some (OList new), Some (OList old) =>
           set_heap (<[dst := OList (old ++ new)]> (heap w)) w
       | _, _ => (Raise (AttributeError "extend"), w)
       end.

(** [self._combined_results = r] *)
Definition set_combined_results (r : loc) : M unit :=
  λ w, (Return tt,
        {| view := {| _job_set := _job_set (view w);
                      backend_name := backend_name (view w);
                      success := success (view w);
                      _combined_results := Some r |};
           heap := heap w; fetched := fetched w |}).

(** *** [copy.deepcopy] of a [Result]

    Every object reachable from the [Result] is copied into a newly
    allocated object; the memo maps an original to its copy, so an entry
    that occurs twice in the list is copied once.  New objects are allocated
    at the end of the store.  The copy is defined on a location that holds
    a [Result] over a list of entries, which is what a job stores; on
    anything else the model raises [AttributeError]. *)
Fixpoint deepcopy_items (items : list loc) (memo : gmap loc loc)
    (h : list obj) : option (list loc * gmap loc loc * list obj) :=
  match items with
  | [] => Some ([], memo, h)
  | x :: rest =>
      match memo !! x with
      | Some y =>
          match deepcopy_items rest memo h with
          | Some (ys, memo', h') => Some (y :: ys, memo', h')
          | None => None
          end
      | None =>
          match h !! x with
          | Some (OEntry c) =>
              match deepcopy_items rest (<[x := length h]> memo)
                      (h ++ [OEntry c]) with
              | Some (ys, memo', h') => Some (length h :: ys, memo', h')
              | None => None
              end
          | _ => None
          end
      end
  end.

Definition deepcopy_result (r : loc) (h : list obj) : option (loc * list obj) :=
  match h !! r with
  | Some (OResult attrs l) =>
      match h !! l with
      | Some (OList items) =>
          match deepcopy_items items ∅ h with
          | Some (items', _, h') =>
              Some (S (length h'),
                    h' ++ [OList items'; OResult attrs (length h')])
          | None => None
          end
      | _ => None
      end
  | _ => None
  end.

Definition deepcopy (r : loc) : M loc :=
  λ w, match deepcopy_result r (heap w) with
       | Some (r', h') => (do set_heap h' then ret r') w
       | None => (Raise (AttributeError "deepcopy"), w)
       end.

(** ** The methods of [ManagedResults] *)

Definition SubmissionNotFound (experiment : Experiment) : exn :=
  IBMQManagedResultDataNotAvailable
    ("Job for experiment " +:+ format experiment
       +:+ " was not successfully submitted.") None.

Definition ResultUnavailable (experiment : Experiment) (err : exn) : exn :=
  IBMQManagedResultDataNotAvailable
    ("Result data for experiment " +:+ format experiment
       +:+ " is not available.") (Some err).

Definition CombinationRefused : exn :=
  IBMQManagedResultDataNotAvailable
    "Results cannot be combined since some of the jobs failed." None.

Definition _get_result (experiment : Experiment) : M (loc * Z) :=
  let* js := gets (λ w, _job_set (view w)) in
  let* '(job, exp_index) := lift (job js experiment) in
  match job with
  | None => raise (SubmissionNotFound experiment)
  | Some job =>
      try_except_JobError
        (let* result := call_result job in ret (result, exp_index))
        (λ err, raise (ResultUnavailable experiment err))
  end.

Definition data (experiment : Experiment) : M Value :=
  let* '(result, exp_index) := _get_result experiment in
  let* h := gets heap in
  lift (Result_data h result exp_index).

Definition get_memory (experiment : Experiment) : M Value :=
  let* '(result, exp_index) := _get_result experiment in
  let* h := gets heap in
  lift (Result_get_memory h result exp_index).

Definition get_counts (experiment : Experiment) : M Value :=
  let* '(result, exp_index) := _get_result experiment in
  let* h := gets heap in
  lift (Result_get_counts h result exp_index).

Definition get_statevector (experiment : Experiment) (decimals : option Z)
    : M Value :=
  let* '(result, exp_index) := _get_result experiment in
  let* h := gets heap in
  lift (Result_get_statevector h result exp_index decimals).

Definition get_unitary (experiment : Experiment) (decimals : option Z)
    : M Value :=
  let* '(result, exp_index) := _get_result experiment in
  let* h := gets heap in
  lift (Result_get_unitary h result exp_index decimals).

(** A [Result] defines neither [__bool__] nor [__len__], so the test
    [if self._combined_results] holds exactly when the cache is set. *)
Definition combine_results : M loc :=
  let* cached := gets (λ w, _combined_results (view w)) in
  match cached with
  | Some r => ret r
  | None =>
      let* ok := gets (λ w, success (view w)) in
      if negb ok then raise CombinationRefused
      else
        let* jobs := gets (λ w, jobs (_job_set (view w))) in
        let* first := getitem jobs 0 in
        let* r0 := call_result first in
        let* combined_result := deepcopy r0 in
        do for_each (range 1 (length jobs)) (λ idx,
             let* dst := getattr_results combined_result in
             let* j := getitem jobs idx in
             let* r := call_result j in
             let* src := getattr_results r in
             list_extend dst src)
        then
        do set_combined_results combined_result then
        ret combined_result
  end.

(** The query methods by name, for statements about every one of them;
    [decimals] is the optional argument of the last two. *)
Inductive method : Type :=
| m_data
| m_get_memory
| m_get_counts
| m_get_statevector (decimals : option Z)
| m_get_unitary (decimals : option Z).

Definition query (m : method) (experiment : Experiment) : M Value :=
  match m with
  | m_data => data experiment
  | m_get_memory => get_memory experiment
  | m_get_counts => get_counts experiment
  | m_get_statevector decimals => get_statevector experiment decimals
  | m_get_unitary decimals => get_unitary experiment decimals
  end.

(** ** Reading the store

    What a caller sees of a [Result]: the item references of its list, the
    contents of the entries, the whole payload, and the objects that make it
    up. *)
Definition read_entry (h : list obj) (x : loc) : option Entry :=
  match h !! x with Some (OEntry c) => Some c | _ => None end.

Definition items_of (h : list obj) (r : loc) : option (list loc) :=
  match h !! r with
  | Some (OResult _ l) =>
      match h !! l with Some (OList items) => Some items | _ => None end
  | _ => None
  end.

Definition header_of (h : list obj) (r : loc) : option Header :=
  match h !! r with Some (OResult attrs _) => Some attrs | _ => None end.

Definition entries_of (h : list obj) (r : loc) : option (list Entry) :=
  match items_of h r with
  | Some items => mapM (read_entry h) items
  | None => None
  end.

Definition snapshot (h : list obj) (r : loc) : option (Header * list Entry) :=
  match header_of h r, entries_of h r with
  | Some attrs, Some es => Some (attrs, es)
  | _, _ => None
  end.

(** The objects of a [Result]: itself, its list, the entries in the list. *)
Definition objects_of (h : list obj) (r : loc) : list loc :=
  match h !! r with
  | Some (OResult _ l) =>
      match h !! l with
      | Some (OList items) => r :: l :: items
      | _ => [r; l]
      end
  | _ => [r]
  end.

(** What a job's stored result holds, when the job has one. *)
Definition job_items (h : list obj) (j : IBMQJob) : option (list loc) :=
  match result j with Return r => items_of h r | Raise _ => None end.

Definition job_entries (h : list obj) (j : IBMQJob) : option (list Entry) :=
  match result j with Return r => entries_of h r | Raise _ => None end.

Definition job_snapshot (h : list obj) (j : IBMQJob)
    : option (Header * list Entry) :=
  match result j with Return r => snapshot h r | Raise _ => None end.

(** [n] calls of a method in a row, keeping every outcome. *)
Fixpoint repeat_call {A} (c : M A) (n : nat) (w : world)
    : list (outcome A) * world :=
  match n with
  | 0 => ([], w)
  | S n' =>
      let '(o, w') := c w in
      let '(os, w'') := repeat_call c n' w' in
      (o :: os, w'')
  end.

End Model.

Notation "'let*' x ':=' c 'in' k" := (bind c (λ x, k))
  (at level 10, x name, c at level 100, k at level 200).
Notation "'let*' ' p ':=' c 'in' k" :=
  (bind c (λ x, match x with p => k end))
  (at level 10, p pattern, c at level 100, k at level 200).
Notation "'do' c 'then' k" := (bind c (λ _, k))
  (at level 10, c at level 100, k at level 200).

(** ** A concrete job set

    Two submitted jobs, the first with the experiments a, b and c, the
    second with d and e; a third job that failed remotely.  Headers, entries
    and accessor values are strings, circuits and schedules are given by
    their names. *)
Module Demo.

Definition store : list (@obj string string) :=
  [ OEntry "a"; OEntry "b"; OEntry "c"; OList [0; 1; 2]; OResult "job0" 3;
    OEntry "d"; OEntry "e"; OList [5; 6]; OResult "job1" 7 ].

Definition job0 : IBMQJob := {| job_id := "job0"; result := Return 4 |}.
Definition job1 : IBMQJob := {| job_id := "job1"; result := Return 8 |}.
Definition failure : exn := JobError "IBMQJobFailureError" "job failed".
Definition job2 : IBMQJob := {| job_id := "job2"; result := Raise failure |}.

Definition lookup (e : @Experiment string string)
    : outcome (option IBMQJob * Z) :=
  match e with
  | by_name "a" | by_position 0%Z => Return (Some job0, 0%Z)
  | by_name "b" | by_position 1%Z => Return (Some job0, 1%Z)
  | by_name "c" | by_position 2%Z => Return (Some job0, 2%Z)
  | by_name "d" | by_position 3%Z => Return (Some job1, 0%Z)
  | by_name "e" | by_position 4%Z => Return (Some job1, 1%Z)
  | by_name "f" | by_position 5%Z => Return (Some job2, 0%Z)
  | _ => Return (None, (-1)%Z)
  end.

Definition job_set (js : list IBMQJob) : ManagedJobSet :=
  {| jobs := js; job := lookup |}.

Definition start (js : list IBMQJob) (ok : bool) : world :=
  {| view := __init__ (job_set js) "ibmq_qasm_simulator" ok;
     heap := store; fetched := [] |}.

(** An accessor that returns the content of the entry at the offset. *)
Definition read_at (h : list (@obj string string)) (r : loc) (i : Z)
    : outcome string :=
  match entries_of h r with
  | Some es =>
      match es !! Z.to_nat i with
      | Some e => Return e
      | None => Raise (IndexError "list index out of range")
      end
  | None => Raise (AttributeError "results")
  end.

Definition read_at_rounded (h : list (@obj string string)) (r : loc) (i : Z)
    (decimals : option Z) : outcome string :=
  match read_at h r i, decimals with
  | Return e, Some d => Return (e +:+ "@" +:+ pretty d)
  | o, _ => o
  end.

#[global] Instance externals
    : @Externals string string string string string := {
  str_circuit := id;
  str_schedule := id;
  Result_data := read_at;
  Result_get_memory := read_at;
  Result_get_counts := read_at;
  Result_get_statevector := read_at_rounded;
  Result_get_unitary := read_at_rounded
}.

(** A job set whose lookup raises for an experiment it does not know, and
    a job whose [result()] is interrupted by something that is no
    [JobError]. *)
Definition not_found : exn :=
  IBMQJobManagerJobNotFound "Unable to find the job for experiment.".
Definition interrupted : exn := OtherError "KeyboardInterrupt" "".
Definition job3 : IBMQJob :=
  {| job_id := "job3"; result := Raise interrupted |}.

Definition strict_lookup (e : @Experiment string string)
    : outcome (option IBMQJob * Z) :=
  match e with
  | by_name "g" => Return (Some job3, 0%Z)
  | _ =>
      match lookup e with
      | Return (None, _) => Raise not_found
      | found => found
      end
  end.

Definition strict_start (js : list IBMQJob) (ok : bool) : world :=
  {| view := __init__ {| jobs := js; job := strict_lookup |}
               "ibmq_qasm_simulator" ok;
     heap := store; fetched := [] |}.

End Demo.

(** ** Facts about lists of lists *)

Section Concat.

Context {A B : Type}.

Lemma length_concat_sum (ls : list (list A)) :
  length (concat ls) = sum_list (length <$> ls).
Proof.
  induction ls as [|l ls IH]; [done|].
  cbn [concat fmap list_fmap sum_list sum_list_with].
  rewrite length_app. by rewrite IH.
Qed.

Lemma lookup_concat_offset (ls : list (list A)) : ∀ i k l x,
  ls !! i = Some l → l !! k = Some x →
  concat ls !! (sum_list (length <$> take i ls) + k) = Some x.
Proof.
  induction ls as [|l0 ls IH]; intros i k l x Hi Hk; [done|].
  change (concat (l0 :: ls)) with (l0 ++ concat ls).
  destruct i as [|i].
  - injection Hi as ->. by apply lookup_app_l_Some.
  - change (sum_list (length <$> take (S i) (l0 :: ls)))
      with (length l0 + sum_list (length <$> take i ls)).
    specialize (IH i k l x Hi Hk).
    set (n := sum_list (length <$> take i ls)) in *.
    rewrite lookup_app_r by lia.
    by replace (length l0 + n + k - length l0) with (n + k) by lia.
Qed.

Lemma Forall2_concat_pointwise (P : A → B → Prop) lss kss :
  Forall2 (Forall2 P) lss kss → Forall2 P (concat lss) (concat kss).
Proof.
  induction 1 as [|l k lss kss Hlk _ IH]; simpl; [constructor|].
  by apply Forall2_app.
Qed.

End Concat.

(** ** Facts about the store *)

Section Store.

Context {Header Entry : Type}.
Implicit Types (h : list (@obj Header Entry)) (x y r l : loc).

Lemma read_entry_Some h x c :
  read_entry h x = Some c ↔ h !! x = Some (OEntry c).
Proof.
  unfold read_entry. destruct (h !! x) as [[]|]; split; congruence.
Qed.

Lemma read_entry_prefix h h' x c :
  h `prefix_of` h' → read_entry h x = Some c → read_entry h' x = Some c.
Proof.
  rewrite !read_entry_Some. intros Hp Hx. by eapply prefix_lookup_Some.
Qed.

Lemma entries_prefix h h' (items : list loc) (cs : list Entry) :
  h `prefix_of` h' →
  Forall2 (λ x c, read_entry h x = Some c) items cs →
  Forall2 (λ x c, read_entry h' x = Some c) items cs.
Proof.
  intros Hp Hread. eapply Forall2_impl; [exact Hread|].
  intros x c. by apply read_entry_prefix.
Qed.

(** Copying the items of a list: every copy is a new object behind the
    [n0] first ones, with the content of its original. *)
Lemma deepcopy_items_spec n0 items : ∀ cs memo h,
  n0 ≤ length h →
  Forall2 (λ x c, read_entry h x = Some c) items cs →
  (∀ x y, memo !! x = Some y →
     n0 ≤ y ∧ ∃ c, read_entry h x = Some c ∧ read_entry h y = Some c) →
  ∃ ys memo' h',
    deepcopy_items items memo h = Some (ys, memo', h') ∧
    h `prefix_of` h' ∧
    Forall2 (λ y c, read_entry h' y = Some c) ys cs ∧
    Forall (λ y, n0 ≤ y) ys.
Proof.
  induction items as [|x rest IH]; intros cs memo h Hn Hread Hmemo.
  - apply Forall2_nil_inv_l in Hread as ->.
    exists [], memo, h. by repeat split.
  - apply Forall2_cons_inv_l in Hread as (c & cs' & Hx & Hrest & ->).
    simpl. destruct (memo !! x) as [y|] eqn:Hm.
    + destruct (IH cs' memo h Hn Hrest Hmemo)
        as (ys & memo' & h' & -> & Hp & Hys & Hfresh).
      destruct (Hmemo x y Hm) as (Hy & c' & Hx' & Hy').
      assert (c' = c) as -> by congruence.
      exists (y :: ys), memo', h'. repeat split; eauto.
      constructor; [by eapply read_entry_prefix|done].
    + pose proof Hx as Hx'. apply read_entry_Some in Hx' as ->.
      set (h1 := h ++ [OEntry c]).
      assert (h `prefix_of` h1) as Hp1 by (by apply prefix_app_r).
      assert (read_entry h1 (length h) = Some c) as Hnew.
      { apply read_entry_Some. unfold h1. by rewrite list_lookup_middle. }
      destruct (IH cs' (<[x := length h]> memo) h1)
        as (ys & memo' & h' & -> & Hp & Hys & Hfresh).
      * unfold h1. rewrite length_app. lia.
      * by eapply entries_prefix.
      * intros x' y'. rewrite lookup_insert_Some.
        intros [[<- <-]|[_ Hm']].
        -- split; [done|]. exists c. split; [|done].
           by eapply read_entry_prefix.
        -- destruct (Hmemo x' y' Hm') as (Hy & c' & Hx' & Hy').
           split; [done|]. exists c'.
           split; by eapply read_entry_prefix.
      * exists (length h :: ys), memo', h'. repeat split.
        -- by etrans.
        -- constructor; [by eapply read_entry_prefix|done].
        -- constructor; done.
Qed.

Lemma deepcopy_result_spec h r attrs l items cs :
  h !! r = Some (OResult attrs l) →
  h !! l = Some (OList items) →
  Forall2 (λ x c, read_entry h x = Some c) items cs →
  ∃ l' ys h',
    deepcopy_result r h = Some (S l', h') ∧
    h `prefix_of` h' ∧ length h ≤ l' ∧
    h' !! S l' = Some (OResult attrs l') ∧
    h' !! l' = Some (OList ys) ∧
    Forall (λ y, length h ≤ y) ys ∧
    Forall2 (λ y c, read_entry h' y = Some c) ys cs.
Proof.
  intros Hr Hl Hread. unfold deepcopy_result. rewrite Hr, Hl.
  destruct (deepcopy_items_spec (length h) items cs ∅ h)
    as (ys & memo' & h1 & -> & Hp & Hys & Hfresh); [done|done| |].
  { intros x y. by rewrite lookup_empty. }
  exists (length h1), ys, (h1 ++ [OList ys; OResult attrs (length h1)]).
  assert (h1 `prefix_of` h1 ++ [OList ys; OResult attrs (length h1)])
    as Hp1 by (by apply prefix_app_r).
  repeat split.
  - by etrans.
  - by apply prefix_length.
  - rewrite lookup_app_r by lia.
    by replace (S (length h1) - length h1) with 1 by lia.
  - by rewrite list_lookup_middle.
  - done.
  - by eapply entries_prefix.
Qed.

Lemma items_of_Some h r its :
  items_of h r = Some its ↔
  ∃ attrs l, h !! r = Some (OResult attrs l) ∧ h !! l = Some (OList its).
Proof.
  unfold items_of. split.
  - destruct (h !! r) as [[attrs l| |]|]; try done.
    destruct (h !! l) as [[]|] eqn:Hl; try done.
    intros [= <-]. eauto.
  - intros (attrs & l & -> & ->). done.
Qed.

Lemma prefix_insert_ge h h' x (o : @obj Header Entry) :
  h `prefix_of` h' → length h ≤ x → h `prefix_of` <[x := o]> h'.
Proof.
  intros [k ->] Hx. rewrite insert_app_r_alt by done. by apply prefix_app_r.
Qed.

Lemma entries_of_Some h r cs :
  entries_of h r = Some cs ↔
  ∃ its, items_of h r = Some its ∧
         Forall2 (λ x c, read_entry h x = Some c) its cs.
Proof.
  unfold entries_of. destruct (items_of h r) as [its|].
  - rewrite mapM_Some. split; [eauto|]. by intros (? & [= <-] & ?).
  - split; [done|]. by intros (? & ? & _).
Qed.

Lemma snapshot_Some h r attrs cs :
  snapshot h r = Some (attrs, cs) ↔
  header_of h r = Some attrs ∧ entries_of h r = Some cs.
Proof.
  unfold snapshot.
  destruct (header_of h r), (entries_of h r); split;
    (intros [= -> ->] || intros [[= ->] [= ->]] || intros [? ?]); done.
Qed.

Lemma items_of_prefix h h' r its :
  h `prefix_of` h' → items_of h r = Some its → items_of h' r = Some its.
Proof.
  intros Hp (attrs & l & Hr & Hl)%items_of_Some. apply items_of_Some.
  exists attrs, l. split; by eapply prefix_lookup_Some.
Qed.

Lemma entries_of_prefix h h' r cs :
  h `prefix_of` h' → entries_of h r = Some cs → entries_of h' r = Some cs.
Proof.
  intros Hp (its & Hits & Hread)%entries_of_Some. apply entries_of_Some.
  exists its. split; [by eapply items_of_prefix|by eapply entries_prefix].
Qed.

Lemma snapshot_prefix h h' r s :
  h `prefix_of` h' → snapshot h r = Some s → snapshot h' r = Some s.
Proof.
  destruct s as [attrs cs]. rewrite !snapshot_Some.
  intros Hp [Hhd Hes]. split; [|by eapply entries_of_prefix].
  unfold header_of in *. destruct (h !! r) as [[a l| |]|] eqn:Hr; try done.
  by rewrite (prefix_lookup_Some _ _ _ _ Hr Hp).
Qed.

End Store.

(** ** The combiner *)

Section Combine.

Context {Header Entry QuantumCircuit Schedule : Type}.
Implicit Types (w : @world Header Entry QuantumCircuit Schedule).
Implicit Types (j : IBMQJob) (r l : loc).

(** How one statement runs. *)
Lemma bind_Return {A B} (c : M A) (k : A → M B) w a w' :
  c w = (Return a, w') → bind c k w = k a w'.
Proof. unfold bind. by intros ->. Qed.

Lemma bind_Raise {A B} (c : M A) (k : A → M B) w e w' :
  c w = (Raise e, w') → bind c k w = (Raise e, w').
Proof. unfold bind. by intros ->. Qed.

Lemma getattr_results_Return w r attrs l :
  heap w !! r = Some (OResult attrs l) → getattr_results r w = (Return l, w).
Proof. unfold getattr_results. by intros ->. Qed.

Lemma getitem_Return (js : list IBMQJob) idx j w :
  js !! idx = Some j → getitem js idx w = (Return j, w).
Proof. unfold getitem. by intros ->. Qed.

Lemma call_result_Return j r w :
  result j = Return r →
  call_result j w
  = (Return r, {| view := view w; heap := heap w;
                  fetched := fetched w ++ [job_id j] |}).
Proof. unfold call_result. by intros ->. Qed.

Lemma list_extend_Return w dst src old new :
  heap w !! src = Some (OList new) →
  heap w !! dst = Some (OList old) →
  list_extend dst src w
  = (Return tt, {| view := view w;
                   heap := <[dst := OList (old ++ new)]> (heap w);
                   fetched := fetched w |}).
Proof. unfold list_extend. by intros -> ->. Qed.

(** The loop of [combine_results] from index [length pre] on: the list of
    the combined result, at [l'], grows by the item references of the
    remaining jobs, in their order; nothing else in the store changes. *)
Lemma extend_loop n0 cr attrs l' (js : list IBMQJob) : ∀ rest pre itss w cur,
  js = pre ++ rest →
  Forall2 (λ j its, ∃ r a lj, result j = Return r ∧ r < n0 ∧ lj < n0 ∧
             heap w !! r = Some (OResult a lj) ∧
             heap w !! lj = Some (OList its)) rest itss →
  heap w !! cr = Some (OResult attrs l') →
  heap w !! l' = Some (OList cur) →
  n0 ≤ l' →
  ∃ h',
    for_each (seq (length pre) (length rest)) (λ idx,
      let* dst := getattr_results cr in
      let* j := getitem js idx in
      let* r := call_result j in
      let* src := getattr_results r in
      list_extend dst src) w
    = (Return tt, {| view := view w; heap := h';
                     fetched := fetched w ++ (job_id <$> rest) |}) ∧
    h' !! l' = Some (OList (cur ++ concat itss)) ∧
    length h' = length (heap w) ∧
    (∀ i, i ≠ l' → h' !! i = heap w !! i).
Proof.
  induction rest as [|j rest IH]; intros pre itss [v h f] cur Hjs Hjobs Hcr Hl' Hn;
    simpl in *.
  - apply Forall2_nil_inv_l in Hjobs as ->. exists h.
    rewrite !app_nil_r. by repeat split.
  - apply Forall2_cons_inv_l in Hjobs
      as (its & itss' & (r & a & lj & Hres & Hr & Hlj & Hhr & Hhl) & Hrest & ->).
    assert (cr ≠ l') as Hne by (intros ->; congruence).
    assert (js !! length pre = Some j) as Hj
      by (rewrite Hjs; apply list_lookup_middle; done).
    set (h1 := <[l' := OList (cur ++ its)]> h).
    destruct (IH (pre ++ [j]) itss'
                {| view := v; heap := h1; fetched := f ++ [job_id j] |}
                (cur ++ its)) as (h' & Hrun & Hfinal & Hlen & Hframe).
    + by rewrite <- app_assoc.
    + eapply Forall2_impl; [exact Hrest|]. simpl.
      intros j' its' (r' & a' & lj' & ? & ? & ? & ? & ?).
      exists r', a', lj'. unfold h1.
      rewrite !list_lookup_insert_ne by lia. done.
    + simpl. unfold h1. by rewrite list_lookup_insert_ne.
    + simpl. unfold h1. apply list_lookup_insert_eq. by eapply lookup_lt_Some.
    + done.
    + rewrite length_app, Nat.add_1_r in Hrun. cbn [length] in Hrun.
      exists h'. repeat split.
      * cbn [length seq for_each].
        erewrite bind_Return; [|].
        2:{ erewrite bind_Return by (by eapply getattr_results_Return).
            erewrite bind_Return by (by eapply getitem_Return).
            erewrite bind_Return by (by eapply call_result_Return).
            erewrite bind_Return by (by eapply getattr_results_Return).
            by eapply list_extend_Return. }
        cbn [view heap fetched]. fold h1. rewrite Hrun.
        cbn [view heap fetched]. by rewrite <- app_assoc.
      * by rewrite Hfinal, <- app_assoc.
      * rewrite Hlen. unfold h1. cbn [heap]. by rewrite length_insert.
      * intros i Hi. rewrite Hframe by done. unfold h1. cbn [heap].
        by rewrite list_lookup_insert_ne.
Qed.

Lemma bind_gets {A B} (f : @world Header Entry QuantumCircuit Schedule → A)
    (k : A → M B) w :
  bind (gets f) k w = k (f w) w.
Proof. reflexivity. Qed.

Lemma agree_prefix (h h' : list (@obj Header Entry)) :
  (∀ i, i < length h → h' !! i = h !! i) → h `prefix_of` h'.
Proof.
  intros Hagree. exists (drop (length h) h'). apply list_eq. intros i.
  destruct (decide (i < length h)) as [Hi|Hi].
  - rewrite lookup_app_l by done. by apply Hagree.
  - rewrite lookup_app_r, lookup_drop by lia. f_equal. lia.
Qed.

(** A run of [combine_results] on a view without cache whose flag is set,
    over at least one job, when every job has a stored result: the result
    object [S l] and its list [l] are new, the list holds new copies [ys]
    of the first job's entries followed by the item references of the other
    jobs, and the store that was there is still there. *)
Lemma combine_results_run w j0 rest r0 attrs l0 its0 cs0 itss :
  _combined_results (view w) = None →
  success (view w) = true →
  jobs (_job_set (view w)) = j0 :: rest →
  result j0 = Return r0 →
  heap w !! r0 = Some (OResult attrs l0) →
  heap w !! l0 = Some (OList its0) →
  Forall2 (λ x c, read_entry (heap w) x = Some c) its0 cs0 →
  Forall2 (λ j its, job_items (heap w) j = Some its) rest itss →
  ∃ l ys h',
    combine_results w
    = (Return (S l),
       {| view := {| _job_set := _job_set (view w);
                     backend_name := backend_name (view w);
                     success := success (view w);
                     _combined_results := Some (S l) |};
          heap := h';
          fetched := fetched w ++ (job_id <$> j0 :: rest) |}) ∧
    heap w `prefix_of` h' ∧
    length (heap w) ≤ l ∧
    h' !! S l = Some (OResult attrs l) ∧
    h' !! l = Some (OList (ys ++ concat itss)) ∧
    Forall (λ y, length (heap w) ≤ y) ys ∧
    Forall2 (λ y c, read_entry h' y = Some c) ys cs0.
Proof.
  intros Hcache Hok Hjobs Hres Hr0 Hl0 Hread Hrest.
  destruct (deepcopy_result_spec (heap w) r0 attrs l0 its0 cs0 Hr0 Hl0 Hread)
    as (l & ys & h1 & Hcopy & Hp & Hl & Hh1r & Hh1l & Hfresh & Hys).
  set (w1 := {| view := view w; heap := h1;
                fetched := fetched w ++ [job_id j0] |}).
  destruct (extend_loop (length (heap w)) (S l) attrs l (j0 :: rest)
              rest [j0] itss w1 ys)
    as (h' & Hloop & Hfinal & Hlen & Hframe); [done| |done|done|done|].
  { eapply Forall2_impl; [exact Hrest|]. intros j its. unfold job_items.
    destruct (result j) as [r|] eqn:Hj; [|done].
    intros (a & lj & Hr & Hlj)%items_of_Some. exists r, a, lj.
    repeat split; try (by eapply lookup_lt_Some);
      by eapply prefix_lookup_Some. }
  assert (heap w `prefix_of` h') as Hp'.
  { apply agree_prefix. intros i Hi. rewrite Hframe by lia.
    unfold w1. cbn [heap]. symmetry. by apply prefix_lookup_lt. }
  exists l, ys, h'. split; [|repeat split; try done].
  - unfold combine_results.
    rewrite bind_gets, Hcache, bind_gets, Hok. cbn [negb].
    rewrite bind_gets, Hjobs.
    erewrite bind_Return by (by eapply getitem_Return).
    erewrite bind_Return by (by eapply call_result_Return).
    erewrite bind_Return.
    2:{ unfold deepcopy. cbn [heap]. rewrite Hcopy. reflexivity. }
    unfold range. cbn [length]. rewrite Nat.sub_succ, Nat.sub_0_r.
    cbn [view heap fetched]. fold w1.
    erewrite bind_Return by exact Hloop.
    unfold bind, set_combined_results, ret, w1. cbn [view heap fetched].
    by rewrite Hok, <- app_assoc.
  - assert (S l ≠ l) as Hne by lia.
    etrans; [exact (Hframe (S l) Hne)|done].
  - eapply Forall2_impl; [exact Hys|]. intros y c. cbn beta.
    rewrite !read_entry_Some. intros Hy.
    rewrite Hframe; [done|]. intros ->. congruence.
Qed.

Lemma job_snapshot_prefix (h h' : list (@obj Header Entry)) j s :
  h `prefix_of` h' → job_snapshot h j = Some s → job_snapshot h' j = Some s.
Proof.
  unfold job_snapshot. destruct (result j); [|done]. apply snapshot_prefix.
Qed.

Lemma job_entries_prefix (h h' : list (@obj Header Entry)) j cs :
  h `prefix_of` h' → job_entries h j = Some cs → job_entries h' j = Some cs.
Proof.
  unfold job_entries. destruct (result j); [|done]. apply entries_of_prefix.
Qed.

Lemma job_snapshot_entries (h : list (@obj Header Entry)) j cs :
  job_entries h j = Some cs ↔ ∃ attrs, job_snapshot h j = Some (attrs, cs).
Proof.
  unfold job_entries, job_snapshot. destruct (result j) as [r|].
  - split.
    + intros Hes. pose proof Hes as (its & Hits & _)%entries_of_Some.
      apply items_of_Some in Hits as (attrs & l & Hr & _).
      exists attrs. apply snapshot_Some. split; [|done].
      unfold header_of. by rewrite Hr.
    + by intros (attrs & [_ ?]%snapshot_Some).
  - split; [done|]. by intros [? ?].
Qed.

(** The item references behind the entries of a list of jobs. *)
Lemma jobs_items (h : list (@obj Header Entry)) (js : list IBMQJob) css :
  Forall2 (λ j cs, job_entries h j = Some cs) js css →
  ∃ itss,
    Forall2 (λ j its, job_items h j = Some its) js itss ∧
    Forall2 (Forall2 (λ x c, read_entry h x = Some c)) itss css.
Proof.
  induction 1 as [|j cs js css Hj _ (itss & Hitss & Hread)].
  - exists []. split; constructor.
  - unfold job_entries in Hj. destruct (result j) as [r|] eqn:Hres; [|done].
    apply entries_of_Some in Hj as (its & Hits & Hcs).
    exists (its :: itss). split; constructor; try done.
    unfold job_items. by rewrite Hres.
Qed.

(** [combine_results_run] in terms of what the jobs hold: the combined
    result has the header of the first job and, as entries, those of all
    jobs in order. *)
Lemma combine_results_sound w j0 rest a0 cs0 css :
  _combined_results (view w) = None →
  success (view w) = true →
  jobs (_job_set (view w)) = j0 :: rest →
  job_snapshot (heap w) j0 = Some (a0, cs0) →
  Forall2 (λ j cs, job_entries (heap w) j = Some cs) rest css →
  ∃ l ys itss h',
    combine_results w
    = (Return (S l),
       {| view := {| _job_set := _job_set (view w);
                     backend_name := backend_name (view w);
                     success := success (view w);
                     _combined_results := Some (S l) |};
          heap := h';
          fetched := fetched w ++ (job_id <$> j0 :: rest) |}) ∧
    heap w `prefix_of` h' ∧
    length (heap w) ≤ l ∧
    h' !! S l = Some (OResult a0 l) ∧
    h' !! l = Some (OList (ys ++ concat itss)) ∧
    Forall (λ y, length (heap w) ≤ y) ys ∧
    length ys = length cs0 ∧
    Forall2 (λ j its, job_items (heap w) j = Some its) rest itss ∧
    snapshot h' (S l) = Some (a0, cs0 ++ concat css).
Proof.
  intros Hcache Hok Hjobs Hj0 Hrest.
  unfold job_snapshot in Hj0. destruct (result j0) as [r0|] eqn:Hres; [|done].
  apply snapshot_Some in Hj0 as [Hhd Hes].
  apply entries_of_Some in Hes as (its0 & Hits0 & Hread0).
  apply items_of_Some in Hits0 as (a & l0 & Hr0 & Hl0).
  unfold header_of in Hhd. rewrite Hr0 in Hhd. injection Hhd as ->.
  destruct (jobs_items _ _ _ Hrest) as (itss & Hitss & Hreads).
  destruct (combine_results_run w j0 rest r0 a0 l0 its0 cs0 itss)
    as (l & ys & h' & Hrun & Hp & Hl & Hh'r & Hh'l & Hfresh & Hys); try done.
  exists l, ys, itss, h'. repeat split; try done.
  - by eapply Forall2_length.
  - apply snapshot_Some. split; [unfold header_of; by rewrite Hh'r|].
    apply entries_of_Some. exists (ys ++ concat itss). split.
    + apply items_of_Some. eauto.
    + apply Forall2_app; [done|]. apply Forall2_concat_pointwise.
      eapply Forall2_impl; [exact Hreads|]. intros its cs.
      by apply entries_prefix.
Qed.

Lemma job_snapshot_frame (h h' : list (@obj Header Entry)) j s x o :
  h `prefix_of` h' → length h ≤ x →
  job_snapshot h j = Some s → job_snapshot (<[x := o]> h') j = Some s.
Proof.
  intros Hp Hx. apply job_snapshot_prefix. by apply prefix_insert_ge.
Qed.

(** C1: on a view whose flag is set and whose cache is empty, over the jobs
    [j0 :: rest] that all hold a result, with the entries [css] job by job,
    [combine_results] returns a result whose entry sequence [es] has the
    length of the sum of the per-job counts, and the entry at the position
    (counts of the jobs before job [i]) + [k] is entry [k] of job [i]. *)
Theorem combine_results_concatenates w j0 rest css :
  _combined_results (view w) = None →
  success (view w) = true →
  jobs (_job_set (view w)) = j0 :: rest →
  mapM (job_entries (heap w)) (j0 :: rest) = Some css →
  ∃ r w' es,
    combine_results w = (Return r, w') ∧
    entries_of (heap w') r = Some es ∧
    mapM (job_entries (heap w')) (j0 :: rest) = Some css ∧
    length es = sum_list (length <$> css) ∧
    ∀ i k cs e, css !! i = Some cs → cs !! k = Some e →
      es !! (sum_list (length <$> take i css) + k) = Some e.
Proof.
  intros Hcache Hok Hjobs Hall. apply mapM_Some in Hall.
  apply Forall2_cons_inv_l in Hall as (cs0 & css' & Hj0 & Hrest & ->).
  apply job_snapshot_entries in Hj0 as [a0 Hj0].
  destruct (combine_results_sound w j0 rest a0 cs0 css')
    as (l & ys & itss & h' & Hrun & Hp & _ & _ & _ & _ & _ & _ & Hsnap);
    try done.
  apply snapshot_Some in Hsnap as [_ Hes].
  eexists (S l), _, (concat (cs0 :: css')). split; [exact Hrun|].
  cbn [heap]. repeat split.
  - done.
  - apply mapM_Some. constructor.
    + eapply job_entries_prefix; [done|].
      apply job_snapshot_entries. eauto.
    + eapply Forall2_impl; [exact Hrest|]. intros j cs.
      by apply job_entries_prefix.
  - apply length_concat_sum.
  - intros i k cs e. apply lookup_concat_offset.
Qed.

(** C4, as the code has it: the combined result, its list and its copies
    of the first job's entries are new objects, so the stored result of
    every job is the same after the combination and after any mutation of
    one of those objects; the entries that follow are the item references
    of the remaining jobs themselves, not copies. *)
Theorem combine_results_copies_first_job_only w j0 rest a0 cs0 css :
  _combined_results (view w) = None →
  success (view w) = true →
  jobs (_job_set (view w)) = j0 :: rest →
  job_snapshot (heap w) j0 = Some (a0, cs0) →
  mapM (job_entries (heap w)) rest = Some css →
  ∃ r w' items itss,
    combine_results w = (Return r, w') ∧
    items_of (heap w') r = Some items ∧
    (∀ j s, job_snapshot (heap w) j = Some s →
            job_snapshot (heap w') j = Some s) ∧
    (∀ x o j s,
       x ∈ take (2 + length cs0) (objects_of (heap w') r) →
       job_snapshot (heap w) j = Some s →
       job_snapshot (<[x := o]> (heap w')) j = Some s) ∧
    mapM (job_items (heap w)) rest = Some itss ∧
    drop (length cs0) items = concat itss.
Proof.
  intros Hcache Hok Hjobs Hj0 Hrest. apply mapM_Some in Hrest.
  destruct (combine_results_sound w j0 rest a0 cs0 css)
    as (l & ys & itss & h' & Hrun & Hp & Hl & Hr & Hlst & Hfresh & Hlen
        & Hitss & _); try done.
  eexists (S l), _, (ys ++ concat itss), itss. split; [exact Hrun|].
  cbn [heap]. repeat split.
  - apply items_of_Some. eauto.
  - intros j s. by apply job_snapshot_prefix.
  - intros x o j s Hx. apply job_snapshot_frame; [done|].
    unfold objects_of in Hx. rewrite Hr, Hlst in Hx.
    cbn [Nat.add take] in Hx. rewrite take_app_length' in Hx by done.
    rewrite !elem_of_cons in Hx. destruct Hx as [->| [->|Hx]]; [lia|lia|].
    by eapply (proj1 (Forall_forall _ _) Hfresh).
  - by apply mapM_Some.
  - by apply drop_app_length'.
Qed.

(** C5: with exactly one job, [combine_results] returns a new result with
    the header and the entries of the job's stored result; that stored
    result is still the same afterwards, also after any object of the
    combined result has been overwritten. *)
Theorem combine_results_single_job w j a cs :
  _combined_results (view w) = None →
  success (view w) = true →
  jobs (_job_set (view w)) = [j] →
  job_snapshot (heap w) j = Some (a, cs) →
  ∃ r w',
    combine_results w = (Return r, w') ∧
    snapshot (heap w') r = Some (a, cs) ∧
    result j ≠ Return r ∧
    job_snapshot (heap w') j = Some (a, cs) ∧
    ∀ x o, x ∈ objects_of (heap w') r →
           job_snapshot (<[x := o]> (heap w')) j = Some (a, cs).
Proof.
  intros Hcache Hok Hjobs Hj.
  destruct (combine_results_sound w j [] a cs [])
    as (l & ys & itss & h' & Hrun & Hp & Hl & Hr & Hlst & Hfresh & Hlen
        & Hitss & Hsnap); try done.
  apply Forall2_nil_inv_l in Hitss as ->.
  cbn [concat] in *. rewrite app_nil_r in *.
  eexists (S l), _. split; [exact Hrun|]. cbn [heap]. repeat split.
  - done.
  - intros Hsame. unfold job_snapshot in Hj. rewrite Hsame in Hj.
    apply snapshot_Some in Hj as [Hhd _]. unfold header_of in Hhd.
    destruct (heap w !! S l) eqn:Hold; [|done].
    apply lookup_lt_Some in Hold. lia.
  - by eapply job_snapshot_prefix.
  - intros x o Hx. apply job_snapshot_frame with (h := heap w); try done.
    unfold objects_of in Hx. rewrite Hr, Hlst in Hx.
    rewrite !elem_of_cons in Hx. destruct Hx as [->| [->|Hx]]; [lia|lia|].
    by eapply (proj1 (Forall_forall _ _) Hfresh).
Qed.

(** Whenever [combine_results] returns, the cache holds what it returned. *)
Lemma combine_results_Return_cached w r w' :
  combine_results w = (Return r, w') → _combined_results (view w') = Some r.
Proof.
  unfold combine_results. rewrite bind_gets.
  destruct (_combined_results (view w)) as [r0|] eqn:Hcache.
  - by intros [= <- <-].
  - rewrite bind_gets. destruct (success (view w)); [|by intros [=]].
    cbn [negb]. rewrite bind_gets. unfold bind at 1.
    destruct (getitem _ 0 w) as [[j0|?] w1]; [|by intros [=]].
    unfold bind at 1.
    destruct (call_result j0 w1) as [[r0|?] w2]; [|by intros [=]].
    unfold bind at 1.
    destruct (deepcopy r0 w2) as [[cr|?] w3]; [|by intros [=]].
    unfold bind at 1.
    destruct (for_each _ _ w3) as [[[]|?] w4]; [|by intros [=]].
    by intros [= <- <-].
Qed.

(** With the cache set, [combine_results] hands out the cached result and
    touches nothing, whatever the store holds by then. *)
Lemma combine_results_hit w r :
  _combined_results (view w) = Some r → combine_results w = (Return r, w).
Proof.
  intros Hcache. unfold combine_results. by rewrite bind_gets, Hcache.
Qed.

Lemma combine_results_miss_refused w :
  _combined_results (view w) = None → success (view w) = false →
  combine_results w = (Raise CombinationRefused, w).
Proof.
  intros Hcache Hok. unfold combine_results.
  by rewrite bind_gets, Hcache, bind_gets, Hok.
Qed.

(** C2: on a view whose flag is not set and whose cache is empty, every
    call of [combine_results], however many are made, raises
    [IBMQManagedResultDataNotAvailable] with the message that results cannot
    be combined, and leaves the view, the store and the log of fetches as
    they were: nothing is combined, nothing is cached. *)
Theorem combine_results_refused w n :
  success (view w) = false →
  _combined_results (view w) = None →
  repeat_call combine_results n w
  = (replicate n (Raise CombinationRefused), w).
Proof.
  intros Hok Hcache. induction n as [|n IH]; [done|].
  cbn [repeat_call replicate].
  by rewrite combine_results_miss_refused, IH.
Qed.

(** C3: once a call of [combine_results] has returned [r], every later call
    on the same view returns that same object [r] and changes nothing: the
    store holds no new object and no job's result is fetched again. *)
Theorem combine_results_cached w r w' n :
  combine_results w = (Return r, w') →
  repeat_call combine_results n w' = (replicate n (Return r), w').
Proof.
  intros Hfirst%combine_results_Return_cached.
  induction n as [|n IH]; [done|].
  cbn [repeat_call replicate].
  by rewrite (combine_results_hit w' r Hfirst), IH.
Qed.

(** C10: with no job in the job set, the flag set and no cache,
    [combine_results] fails on [jobs[0]] with the [IndexError] of an index
    out of range, which is not an [IBMQManagedResultDataNotAvailable]. *)
Theorem combine_results_no_jobs w :
  jobs (_job_set (view w)) = [] →
  success (view w) = true →
  _combined_results (view w) = None →
  combine_results w = (Raise (IndexError "list index out of range"), w) ∧
  ∀ msg cause,
    IndexError "list index out of range"
    ≠ IBMQManagedResultDataNotAvailable msg cause.
Proof.
  intros Hjobs Hok Hcache. split; [|done].
  unfold combine_results. rewrite bind_gets, Hcache, bind_gets, Hok.
  cbn [negb]. by rewrite bind_gets, Hjobs.
Qed.

End Combine.

(** ** The resolver and the query methods *)

Section Queries.

Context {Header Entry Value QuantumCircuit Schedule : Type}.
Context `{!@Externals Header Entry Value QuantumCircuit Schedule}.

Implicit Types (w : @world Header Entry QuantumCircuit Schedule).
Implicit Types (e : @Experiment QuantumCircuit Schedule) (j : IBMQJob).

(** The world after [job.result()] was called on [j]. *)
Local Abbreviation fetch j w :=
  {| view := view w; heap := heap w; fetched := fetched w ++ [job_id j] |}.

Lemma _get_result_not_submitted w e i :
  job (_job_set (view w)) e = Return (None, i) →
  _get_result e w = (Raise (SubmissionNotFound e), w).
Proof.
  intros Hjob. unfold _get_result, bind, gets, lift.
  by rewrite Hjob.
Qed.

Lemma _get_result_job_error w e j i err :
  job (_job_set (view w)) e = Return (Some j, i) →
  result j = Raise err →
  is_JobError err = true →
  _get_result e w = (Raise (ResultUnavailable e err), fetch j w).
Proof.
  intros Hjob Hres Herr.
  unfold _get_result, bind, gets, lift. rewrite Hjob.
  unfold try_except_JobError, call_result. by rewrite Hres, Herr.
Qed.

Lemma _get_result_resolved w e j i r :
  job (_job_set (view w)) e = Return (Some j, i) →
  result j = Return r →
  _get_result e w = (Return (r, i), fetch j w).
Proof.
  intros Hjob Hres.
  unfold _get_result, bind, gets, lift. rewrite Hjob.
  unfold try_except_JobError, call_result. by rewrite Hres.
Qed.

(** A query method fails the way the resolver fails. *)
Lemma query_Raise m w e err w' :
  _get_result e w = (Raise err, w') → query m e w = (Raise err, w').
Proof.
  intros Hget.
  destruct m; cbn [query];
    [unfold data|unfold get_memory
    |unfold get_counts|unfold get_statevector
    |unfold get_unitary];
    by apply bind_Raise.
Qed.

(** C6: when the lookup of the job set returns no job for the experiment,
    every query method raises [IBMQManagedResultDataNotAvailable] with the
    message that the job was not successfully submitted. *)
Theorem query_not_submitted m w e i :
  job (_job_set (view w)) e = Return (None, i) →
  query m e w = (Raise (SubmissionNotFound e), w) ∧
  SubmissionNotFound e
  = IBMQManagedResultDataNotAvailable
      ("Job for experiment " +:+ format e
         +:+ " was not successfully submitted.") None.
Proof.
  intros Hjob. split; [|done].
  apply query_Raise. by eapply _get_result_not_submitted.
Qed.

(** C7: when the experiment resolves to a job whose [result()] raises a
    [JobError], every query method raises
    [IBMQManagedResultDataNotAvailable] with the message that the result
    data is not available, and the [JobError] is its cause. *)
Theorem query_result_unavailable m w e j i err :
  job (_job_set (view w)) e = Return (Some j, i) →
  result j = Raise err →
  is_JobError err = true →
  query m e w = (Raise (ResultUnavailable e err), fetch j w) ∧
  cause (ResultUnavailable e err) = Some err ∧
  message (ResultUnavailable e err)
  = "Result data for experiment " +:+ format e
      +:+ " is not available.".
Proof.
  intros Hjob Hres Herr. split; [|done].
  apply query_Raise. by eapply _get_result_job_error.
Qed.

(** C8: the three failures are raised, not returned, and no two of them
    are the same signal: the exception of an experiment without job, that
    of a job without result and that of a refused combination differ
    pairwise, already in their messages. *)
Theorem failures_explicit_and_distinct m1 m2 w1 w2 w3 e1 e2 i1 i2 j err :
  job (_job_set (view w1)) e1 = Return (None, i1) →
  job (_job_set (view w2)) e2 = Return (Some j, i2) →
  result j = Raise err →
  is_JobError err = true →
  success (view w3) = false →
  _combined_results (view w3) = None →
  ∃ x1 x2 x3,
    (query m1 e1 w1).1 = Raise x1 ∧
    (query m2 e2 w2).1 = Raise x2 ∧
    (combine_results w3).1 = Raise x3 ∧
    x1 = SubmissionNotFound e1 ∧
    x2 = ResultUnavailable e2 err ∧
    x3 = CombinationRefused ∧
    message x1 ≠ message x2 ∧
    message x1 ≠ message x3 ∧
    message x2 ≠ message x3.
Proof.
  intros Hnone Hsome Hres Herr Hok Hcache.
  exists (SubmissionNotFound e1), (ResultUnavailable e2 err),
    CombinationRefused.
  repeat split; try discriminate.
  - erewrite query_Raise; [done|]. by eapply _get_result_not_submitted.
  - erewrite query_Raise; [done|]. by eapply _get_result_job_error.
  - by rewrite combine_results_miss_refused.
Qed.

(** C9: when the experiment resolves to a job and an offset and the job has
    a result, each query method returns what the accessor of the same name
    returns on that result at that offset, with [decimals] passed on by
    [get_statevector] and [get_unitary], and nothing is done to the value. *)
Theorem query_delegates w e j i r :
  job (_job_set (view w)) e = Return (Some j, i) →
  result j = Return r →
  data e w = (Result_data (heap w) r i, fetch j w) ∧
  get_memory e w = (Result_get_memory (heap w) r i, fetch j w) ∧
  get_counts e w = (Result_get_counts (heap w) r i, fetch j w) ∧
  (∀ decimals,
     get_statevector e decimals w
     = (Result_get_statevector (heap w) r i decimals, fetch j w)) ∧
  (∀ decimals,
     get_unitary e decimals w
     = (Result_get_unitary (heap w) r i decimals, fetch j w)).
Proof.
  intros Hjob Hres.
  pose proof (_get_result_resolved w e j i r Hjob Hres) as Hget.
  repeat split; intros;
    [unfold data|unfold get_memory
    |unfold get_counts|unfold get_statevector
    |unfold get_unitary];
    by erewrite bind_Return by exact Hget.
Qed.

End Queries.

(** ** The concrete job set, run *)

Abbreviation two_jobs := (Demo.start [Demo.job0; Demo.job1] true).

(** Two jobs with the experiments a, b, c and d, e: the combined entries
    are a, b, c, d, e, in a new result object. *)
Example combine_two_jobs :
  ∃ w', combine_results two_jobs = (Return 13, w') ∧
        snapshot (heap w') 13 = Some ("job0", ["a"; "b"; "c"; "d"; "e"]) ∧
        items_of (heap w') 13 = Some [9; 10; 11; 5; 6] ∧
        fetched w' = ["job0"; "job1"].
Proof. eexists. repeat split. Qed.

(** [get_counts("d")] reads offset 0 of the second job, without any
    combination. *)
Example get_counts_d :
  query m_get_counts (by_name "d") two_jobs
  = (Return "d",
     {| view := view two_jobs; heap := Demo.store; fetched := ["job1"] |}).
Proof. reflexivity. Qed.

(** [data("z")] for an experiment that was not submitted. *)
Example data_z :
  (query m_data (by_name "z") two_jobs).1
  = Raise (IBMQManagedResultDataNotAvailable
             "Job for experiment z was not successfully submitted." None).
Proof. reflexivity. Qed.

(** A flag set by the caller although the second job failed: the
    [JobError] of that job comes out of [combine_results] as it is. *)
Example combine_with_failed_job :
  (combine_results (Demo.start [Demo.job0; Demo.job2] true)).1
  = Raise Demo.failure.
Proof. reflexivity. Qed.

Lemma combine_results_concatenates_witness :
  ∃ r w' es,
    combine_results two_jobs = (Return r, w') ∧
    entries_of (heap w') r = Some es ∧
    mapM (job_entries (heap w')) [Demo.job0; Demo.job1]
    = Some [["a"; "b"; "c"]; ["d"; "e"]] ∧
    length es = sum_list (length <$> [["a"; "b"; "c"]; ["d"; "e"]]) ∧
    ∀ i k cs e,
      [["a"; "b"; "c"]; ["d"; "e"]] !! i = Some cs → cs !! k = Some e →
      es !! (sum_list (length <$> take i [["a"; "b"; "c"]; ["d"; "e"]]) + k)
      = Some e.
Proof.
  apply (combine_results_concatenates two_jobs Demo.job0 [Demo.job1]);
    reflexivity.
Defined.

Lemma combine_results_refused_witness :
  repeat_call combine_results 3 (Demo.start [Demo.job0; Demo.job2] false)
  = (replicate 3 (Raise CombinationRefused),
     Demo.start [Demo.job0; Demo.job2] false).
Proof.
  apply (combine_results_refused (Demo.start [Demo.job0; Demo.job2] false) 3);
    reflexivity.
Defined.

Lemma combine_results_cached_witness :
  repeat_call combine_results 2 (combine_results two_jobs).2
  = (replicate 2 (Return 13), (combine_results two_jobs).2).
Proof.
  apply (combine_results_cached two_jobs 13 (combine_results two_jobs).2 2).
  reflexivity.
Defined.

Lemma combine_results_copies_first_job_only_witness :
  ∃ r w' items itss,
    combine_results two_jobs = (Return r, w') ∧
    items_of (heap w') r = Some items ∧
    (∀ j s, job_snapshot (heap two_jobs) j = Some s →
            job_snapshot (heap w') j = Some s) ∧
    (∀ x o j s,
       x ∈ take (2 + length ["a"; "b"; "c"]) (objects_of (heap w') r) →
       job_snapshot (heap two_jobs) j = Some s →
       job_snapshot (<[x := o]> (heap w')) j = Some s) ∧
    mapM (job_items (heap two_jobs)) [Demo.job1] = Some itss ∧
    drop (length ["a"; "b"; "c"]) items = concat itss.
Proof.
  apply (combine_results_copies_first_job_only two_jobs Demo.job0
           [Demo.job1] "job0" ["a"; "b"; "c"] [["d"; "e"]]);
    reflexivity.
Defined.

(** The claim C4 as it stands fails on two jobs: entry 3 of the combined
    result is the first entry of the second job itself, and overwriting it
    changes what that job's stored result holds. *)
Lemma combine_results_aliases_later_jobs :
  ¬ (∀ r w' x o j,
       combine_results two_jobs = (Return r, w') →
       x ∈ objects_of (heap w') r →
       j ∈ [Demo.job0; Demo.job1] →
       job_snapshot (<[x := o]> (heap w')) j
       = job_snapshot (heap two_jobs) j).
Proof.
  intros Hclaim.
  specialize (Hclaim 13 (combine_results two_jobs).2 5 (OEntry "X")
                Demo.job1 eq_refl).
  vm_compute in Hclaim.
  assert (Some ("job1", ["X"; "e"]) = Some ("job1", ["d"; "e"])) as Heq.
  { apply Hclaim.
    - do 5 apply list_elem_of_further. apply list_elem_of_here.
    - apply list_elem_of_further, list_elem_of_here. }
  discriminate Heq.
Qed.

Lemma combine_results_single_job_witness :
  ∃ r w',
    combine_results (Demo.start [Demo.job0] true) = (Return r, w') ∧
    snapshot (heap w') r = Some ("job0", ["a"; "b"; "c"]) ∧
    result Demo.job0 ≠ Return r ∧
    job_snapshot (heap w') Demo.job0 = Some ("job0", ["a"; "b"; "c"]) ∧
    ∀ x o, x ∈ objects_of (heap w') r →
           job_snapshot (<[x := o]> (heap w')) Demo.job0
           = Some ("job0", ["a"; "b"; "c"]).
Proof.
  apply (combine_results_single_job (Demo.start [Demo.job0] true) Demo.job0);
    reflexivity.
Defined.

Lemma combine_results_no_jobs_witness :
  combine_results (Demo.start [] true)
  = (Raise (IndexError "list index out of range"), Demo.start [] true) ∧
  ∀ msg cause,
    IndexError "list index out of range"
    ≠ IBMQManagedResultDataNotAvailable msg cause.
Proof.
  apply (combine_results_no_jobs (Demo.start [] true)); reflexivity.
Defined.

Lemma query_not_submitted_witness :
  query m_get_counts (by_name "z") two_jobs
  = (Raise (SubmissionNotFound (by_name "z")), two_jobs) ∧
  SubmissionNotFound (by_name "z")
  = IBMQManagedResultDataNotAvailable
      ("Job for experiment " +:+ format (by_name "z")
         +:+ " was not successfully submitted.") None.
Proof.
  apply (query_not_submitted m_get_counts two_jobs (by_name "z") (-1)%Z).
  reflexivity.
Defined.

Lemma query_result_unavailable_witness :
  query (m_get_unitary (Some 3%Z)) (by_name "f") two_jobs
  = (Raise (ResultUnavailable (by_name "f") Demo.failure),
     {| view := view two_jobs; heap := heap two_jobs;
        fetched := fetched two_jobs ++ [job_id Demo.job2] |}) ∧
  cause (ResultUnavailable (by_name "f") Demo.failure)
  = Some Demo.failure ∧
  message (ResultUnavailable (by_name "f") Demo.failure)
  = "Result data for experiment " +:+ format (by_name "f")
      +:+ " is not available.".
Proof.
  apply (query_result_unavailable (m_get_unitary (Some 3%Z)) two_jobs
           (by_name "f") Demo.job2 0%Z Demo.failure);
    reflexivity.
Defined.

Lemma failures_explicit_and_distinct_witness :
  ∃ x1 x2 x3,
    (query m_data (by_position 9%Z) two_jobs).1 = Raise x1 ∧
    (query m_get_memory (by_position 5%Z) two_jobs).1 = Raise x2 ∧
    (combine_results (Demo.start [Demo.job0; Demo.job2] false)).1
    = Raise x3 ∧
    x1 = SubmissionNotFound (by_position 9%Z) ∧
    x2 = ResultUnavailable (by_position 5%Z) Demo.failure ∧
    x3 = CombinationRefused ∧
    message x1 ≠ message x2 ∧
    message x1 ≠ message x3 ∧
    message x2 ≠ message x3.
Proof.
  apply (failures_explicit_and_distinct m_data m_get_memory
           two_jobs two_jobs
           (Demo.start [Demo.job0; Demo.job2] false)
           (by_position 9%Z) (by_position 5%Z) (-1)%Z 0%Z Demo.job2
           Demo.failure);
    reflexivity.
Defined.

Lemma query_delegates_witness :
  data (by_name "d") two_jobs
  = (Result_data Demo.store 8 0%Z,
     {| view := view two_jobs; heap := Demo.store; fetched := ["job1"] |}) ∧
  get_memory (by_name "d") two_jobs
  = (Result_get_memory Demo.store 8 0%Z,
     {| view := view two_jobs; heap := Demo.store; fetched := ["job1"] |}) ∧
  get_counts (by_name "d") two_jobs
  = (Result_get_counts Demo.store 8 0%Z,
     {| view := view two_jobs; heap := Demo.store; fetched := ["job1"] |}) ∧
  (∀ decimals,
     get_statevector (by_name "d") decimals two_jobs
     = (Result_get_statevector Demo.store 8 0%Z decimals,
        {| view := view two_jobs; heap := Demo.store;
           fetched := ["job1"] |})) ∧
  (∀ decimals,
     get_unitary (by_name "d") decimals two_jobs
     = (Result_get_unitary Demo.store 8 0%Z decimals,
        {| view := view two_jobs; heap := Demo.store;
           fetched := ["job1"] |})).
Proof.
  apply (query_delegates two_jobs (by_name "d") Demo.job1 0%Z 8);
    reflexivity.
Defined.

(** ** What the combiner leaves alone *)

Section Frames.

Context {Header Entry QuantumCircuit Schedule : Type}.
Implicit Types (w : @world Header Entry QuantumCircuit Schedule).
Implicit Types (h : list (@obj Header Entry)) (j : IBMQJob).

(** The body of the loop of [combine_results]. *)
Local Abbreviation extend_from cr js :=
  (λ idx : nat,
     let* dst := getattr_results cr in
     let* j := getitem js idx in
     let* r := call_result j in
     let* src := getattr_results r in
     list_extend dst src).

Lemma deepcopy_items_prefix (items : list loc) : ∀ memo h ys memo' h',
  deepcopy_items items memo h = Some (ys, memo', h') → h `prefix_of` h'.
Proof.
  induction items as [|x rest IH]; intros memo h ys memo' h'; simpl.
  - by intros [= _ _ <-].
  - destruct (memo !! x) as [y|].
    + destruct (deepcopy_items rest memo h) as [[[ys0 m0] h0]|] eqn:Hrec;
        [|done].
      intros [= _ _ <-]. by eapply IH.
    + destruct (h !! x) as [[| |c]|]; try done.
      destruct (deepcopy_items rest _ _) as [[[ys0 m0] h0]|] eqn:Hrec;
        [|done].
      intros [= _ _ <-]. etrans; [|by eapply IH]. by apply prefix_app_r.
Qed.

(** [deepcopy] only allocates: the store it finds is a prefix of the store
    it leaves, and what it returns is a new [Result] over a new list. *)
Lemma deepcopy_frame r w o w1 :
  deepcopy r w = (o, w1) →
  view w1 = view w ∧ fetched w1 = fetched w ∧
  heap w `prefix_of` heap w1 ∧
  ∀ cr, o = Return cr →
    ∃ a l, cr = S l ∧ length (heap w) ≤ l ∧
           heap w1 !! S l = Some (OResult a l).
Proof.
  unfold deepcopy, deepcopy_result.
  destruct (heap w !! r) as [[a l0| |]|]; try (by intros [= <- <-]).
  destruct (heap w !! l0) as [[|items|]|]; try (by intros [= <- <-]).
  destruct (deepcopy_items items ∅ (heap w)) as [[[ys m] h1]|] eqn:Hitems;
    [|by intros [= <- <-]].
  apply deepcopy_items_prefix in Hitems.
  unfold bind, set_heap, ret. intros [= <- <-]. cbn [view heap fetched].
  repeat split.
  - etrans; [exact Hitems|]. by apply prefix_app_r.
  - intros cr [= <-]. exists a, (length h1). repeat split.
    + by apply prefix_length.
    + rewrite lookup_app_r by lia.
      by replace (S (length h1) - length h1) with 1 by lia.
Qed.

(** One turn of the loop writes to the list of the combined result and to
    nothing else, whatever comes of it. *)
Lemma extend_from_frame cr a l (js : list IBMQJob) idx w o w1 :
  heap w !! cr = Some (OResult a l) →
  extend_from cr js idx w = (o, w1) →
  view w1 = view w ∧ fetched w `prefix_of` fetched w1 ∧
  length (heap w1) = length (heap w) ∧
  (∀ i, i ≠ l → heap w1 !! i = heap w !! i) ∧
  heap w1 !! cr = Some (OResult a l).
Proof.
  intros Hcr. cbv beta.
  erewrite bind_Return by (by eapply getattr_results_Return).
  unfold bind, getitem.
  destruct (js !! idx) as [j|]; [|by intros [= <- <-]].
  unfold ret, call_result.
  destruct (result j) as [r|e];
    [|intros [= <- <-]; repeat split; try done; by apply prefix_app_r].
  unfold getattr_results. cbn [heap].
  destruct (heap w !! r) as [[a' lj| |]|];
    try (intros [= <- <-]; repeat split; try done; by apply prefix_app_r).
  unfold list_extend. cbn [heap].
  destruct (heap w !! lj) as [[|new|]|];
    try (intros [= <- <-]; repeat split; try done; by apply prefix_app_r).
  destruct (heap w !! l) as [[|old|]|] eqn:Hl;
    try (intros [= <- <-]; repeat split; try done; by apply prefix_app_r).
  unfold set_heap. intros [= <- <-]. cbn [view heap fetched].
  repeat split.
  - by apply prefix_app_r.
  - by rewrite length_insert.
  - intros i Hi. by rewrite list_lookup_insert_ne.
  - rewrite list_lookup_insert_ne; [done|]. intros ->. congruence.
Qed.

Lemma extend_loop_frame cr a l (js : list IBMQJob) idxs : ∀ w o w',
  heap w !! cr = Some (OResult a l) →
  for_each idxs (extend_from cr js) w = (o, w') →
  view w' = view w ∧ fetched w `prefix_of` fetched w' ∧
  length (heap w') = length (heap w) ∧
  (∀ i, i ≠ l → heap w' !! i = heap w !! i).
Proof.
  induction idxs as [|idx idxs IH]; intros w o w' Hcr.
  - by intros [= <- <-].
  - cbn [for_each]. unfold bind at 1.
    destruct (extend_from cr js idx w) as [[[]|e] w1] eqn:Hstep;
      apply (extend_from_frame cr a l) in Hstep
        as (Hv & Hf & Hlen & Hfr & Hcr1); try done.
    + intros (Hv' & Hf' & Hlen' & Hfr')%IH; [|done]. repeat split.
      * congruence.
      * by etrans.
      * congruence.
      * intros i Hi. by rewrite Hfr', Hfr.
    + by intros [= <- <-].
Qed.

Lemma combine_results_frame_run w o w' :
  combine_results w = (o, w') →
  heap w `prefix_of` heap w' ∧
  fetched w `prefix_of` fetched w' ∧
  _job_set (view w') = _job_set (view w) ∧
  backend_name (view w') = backend_name (view w) ∧
  success (view w') = success (view w) ∧
  (∀ e, o = Raise e → view w' = view w).
Proof.
  unfold combine_results. rewrite bind_gets.
  destruct (_combined_results (view w)) as [r|]; [by intros [= <- <-]|].
  rewrite bind_gets. destruct (success (view w)) eqn:Hok;
    [|by intros [= <- <-]].
  cbn [negb]. rewrite bind_gets. unfold bind at 1. unfold getitem at 1.
  destruct (jobs (_job_set (view w)) !! 0) as [j0|]; [|by intros [= <- <-]].
  unfold ret at 1. unfold bind at 1. unfold call_result at 1.
  destruct (result j0) as [r0|e0];
    [|intros [= <- <-]; repeat split; try done; by apply prefix_app_r].
  unfold bind at 1.
  destruct (deepcopy r0 _) as [[cr|e1] w3] eqn:Hcopy;
    apply deepcopy_frame in Hcopy as (Hv3 & Hf3 & Hp3 & Hnew);
    cbn [view heap fetched] in *.
  2:{ intros [= <- <-]. rewrite Hv3, Hf3.
      repeat split; try done. by apply prefix_app_r. }
  destruct (Hnew cr eq_refl) as (a & l & -> & Hl & Hcr).
  unfold bind at 1.
  destruct (for_each _ _ w3) as [[[]|e2] w4] eqn:Hloop;
    apply (extend_loop_frame (S l) a l) in Hloop
      as (Hv4 & Hf4 & Hlen4 & Hfr4); try done.
  - unfold bind, set_combined_results, ret. intros [= <- <-].
    cbn [view heap fetched _job_set backend_name success]. rewrite Hv4, Hv3.
    repeat split; try done.
    + apply agree_prefix. intros i Hi. rewrite Hfr4 by lia.
      symmetry. by apply prefix_lookup_lt.
    + etrans; [|exact Hf4]. rewrite Hf3. by apply prefix_app_r.
  - intros [= <- <-]. rewrite Hv4, Hv3. repeat split; try done.
    + apply agree_prefix. intros i Hi. rewrite Hfr4 by lia.
      symmetry. by apply prefix_lookup_lt.
    + etrans; [|exact Hf4]. rewrite Hf3. by apply prefix_app_r.
Qed.

(** X5: whatever [combine_results] does and however it ends, every object
    that was in the store is still there unchanged, the log of fetches only
    grows, the job set, the backend name and the flag of the view stay as
    they were, and a call that raises leaves the cache as it was too. *)
Theorem combine_results_frame w :
  heap w `prefix_of` heap (combine_results w).2 ∧
  fetched w `prefix_of` fetched (combine_results w).2 ∧
  _job_set (view (combine_results w).2) = _job_set (view w) ∧
  backend_name (view (combine_results w).2) = backend_name (view w) ∧
  success (view (combine_results w).2) = success (view w) ∧
  (∀ e, (combine_results w).1 = Raise e →
        view (combine_results w).2 = view w).
Proof.
  destruct (combine_results w) as [o w'] eqn:Hrun.
  by apply combine_results_frame_run.
Qed.

(** *** A combination that returns has fetched every job *)

Lemma extend_from_Return cr (js : list IBMQJob) idx j w w1 :
  js !! idx = Some j →
  extend_from cr js idx w = (Return tt, w1) →
  (∃ r, result j = Return r) ∧ fetched w1 = fetched w ++ [job_id j].
Proof.
  intros Hj. cbv beta. unfold bind at 1.
  destruct (getattr_results cr w) as [[dst|e] w0] eqn:Hdst; [|done].
  assert (w0 = w) as ->.
  { unfold getattr_results in Hdst.
    destruct (heap w !! cr) as [[| |]|]; by injection Hdst. }
  erewrite bind_Return by (by eapply getitem_Return).
  unfold bind at 1. unfold call_result at 1.
  destruct (result j) as [r|e]; [|done].
  unfold bind, getattr_results, list_extend, set_heap.
  cbn [view heap fetched].
  destruct (heap w !! r) as [[a lj| |]|]; try done.
  cbn [view heap fetched].
  destruct (heap w !! lj) as [[|new|]|]; try done.
  destruct (heap w !! dst) as [[|old|]|]; try done.
  cbn [view heap fetched]. intros [= <-]. eauto.
Qed.

Lemma extend_loop_Return cr (js : list IBMQJob) : ∀ rest pre w w',
  js = pre ++ rest →
  for_each (seq (length pre) (length rest)) (extend_from cr js) w
  = (Return tt, w') →
  Forall (λ j, ∃ r, result j = Return r) rest ∧
  fetched w' = fetched w ++ (job_id <$> rest).
Proof.
  induction rest as [|j rest IH]; intros pre w w' Hjs.
  - intros [= <-]. split; [constructor|]. by rewrite app_nil_r.
  - cbn [length seq for_each]. unfold bind at 1.
    destruct (extend_from cr js (length pre) w) as [[[]|e] w1] eqn:Hstep;
      [|done].
    apply (extend_from_Return cr js (length pre) j) in Hstep as [Hres Hf1];
      [|by rewrite Hjs, list_lookup_middle].
    intros Hrest. destruct (IH (pre ++ [j]) w1 w') as [Hall Hf'].
    + by rewrite <- app_assoc.
    + by rewrite length_app, Nat.add_1_r.
    + split; [by constructor|].
      rewrite Hf', Hf1, <- app_assoc. done.
Qed.

(** X6: a call of [combine_results] that returns without a cache to rely
    on has found the flag set and at least one job, has called [result()]
    on every job of the set exactly once and in submission order, and every
    one of these calls has returned a result: nothing is combined from a
    part of the jobs. *)
Theorem combine_results_Return_complete w r w' :
  combine_results w = (Return r, w') →
  _combined_results (view w) = None →
  success (view w) = true ∧
  jobs (_job_set (view w)) ≠ [] ∧
  Forall (λ j, ∃ rj, result j = Return rj) (jobs (_job_set (view w))) ∧
  fetched w' = fetched w ++ (job_id <$> jobs (_job_set (view w))).
Proof.
  intros Hrun Hcache. revert Hrun. unfold combine_results.
  rewrite bind_gets, Hcache, bind_gets.
  destruct (success (view w)); [|done]. cbn [negb]. rewrite bind_gets.
  destruct (jobs (_job_set (view w))) as [|j0 rest] eqn:Hjobs; [done|].
  erewrite bind_Return by (by eapply getitem_Return).
  unfold bind at 1. unfold call_result at 1.
  destruct (result j0) as [r0|e0] eqn:Hres; [|done].
  unfold bind at 1.
  destruct (deepcopy r0 _) as [[cr|e1] w3] eqn:Hcopy; [|done].
  apply deepcopy_frame in Hcopy as (_ & Hf3 & _ & _).
  cbn [fetched] in Hf3.
  unfold range. cbn [length]. rewrite Nat.sub_succ, Nat.sub_0_r.
  unfold bind at 1.
  destruct (for_each _ _ w3) as [[[]|e2] w4] eqn:Hloop; [|done].
  apply (extend_loop_Return cr (j0 :: rest) rest [j0]) in Hloop
    as [Hall Hf4]; [|done].
  unfold bind, set_combined_results, ret. intros [= _ <-].
  cbn [fetched]. repeat split; try done.
  - constructor; eauto.
  - rewrite Hf4, Hf3, <- app_assoc. done.
Qed.

(** *** A job that fails under a set flag *)

Lemma for_each_app idxs1 idxs2 (body : nat → M unit) w :
  for_each (idxs1 ++ idxs2) body w
  = (do for_each idxs1 body then for_each idxs2 body) w.
Proof.
  revert w. induction idxs1 as [|idx idxs1 IH]; intros w; [done|].
  cbn [app for_each]. unfold bind.
  destruct (body idx w) as [[[]|e] w1]; [|done]. by rewrite IH.
Qed.

Lemma for_each_extend_ext cr (js js' : list IBMQJob) idxs : ∀ w,
  (∀ idx, idx ∈ idxs → js !! idx = js' !! idx) →
  for_each idxs (extend_from cr js) w = for_each idxs (extend_from cr js') w.
Proof.
  induction idxs as [|idx idxs IH]; intros w Hsame; [done|].
  cbn [for_each]. cbv beta. unfold bind at 1 6. unfold bind, getitem.
  rewrite (Hsame idx (list_elem_of_here _ _)).
  match goal with
  | |- match ?step with _ => _ end = _ => destruct step as [[[]|e] w1]
  end; [|done].
  apply IH. intros idx' Hidx. apply Hsame. by apply list_elem_of_further.
Qed.

Lemma combine_results_job_failure_run w pre j post css err :
  _combined_results (view w) = None →
  success (view w) = true →
  jobs (_job_set (view w)) = pre ++ j :: post →
  mapM (job_entries (heap w)) pre = Some css →
  result j = Raise err →
  ∃ w', combine_results w = (Raise err, w') ∧
        fetched w' = fetched w ++ (job_id <$> pre ++ [j]).
Proof.
  intros Hcache Hok Hjobs Hpre Hres. apply mapM_Some in Hpre.
  unfold combine_results.
  rewrite bind_gets, Hcache, bind_gets, Hok. cbn [negb].
  rewrite bind_gets, Hjobs.
  destruct pre as [|j0 pre'].
  - cbn [app]. erewrite bind_Return by (by eapply getitem_Return).
    unfold bind, call_result. rewrite Hres. eexists. split; [done|]. done.
  - apply Forall2_cons_inv_l in Hpre as (cs0 & css' & Hj0 & Hrest & ->).
    unfold job_entries in Hj0.
    destruct (result j0) as [r0|] eqn:Hres0; [|done].
    apply entries_of_Some in Hj0 as (its0 & Hits0 & Hread0).
    apply items_of_Some in Hits0 as (a0 & l0 & Hr0 & Hl0).
    destruct (jobs_items _ _ _ Hrest) as (itss & Hitss & _).
    destruct (deepcopy_result_spec (heap w) r0 a0 l0 its0 cs0 Hr0 Hl0 Hread0)
      as (l & ys & h1 & Hcopy & Hp & Hl & Hh1r & Hh1l & _ & _).
    set (w1 := {| view := view w; heap := h1;
                  fetched := fetched w ++ [job_id j0] |}).
    destruct (extend_loop (length (heap w)) (S l) a0 l (j0 :: pre')
                pre' [j0] itss w1 ys)
      as (h' & Hloop & _ & _ & Hframe); [done| |done|done|done|].
    { eapply Forall2_impl; [exact Hitss|]. intros j' its. unfold job_items.
      destruct (result j') as [r|] eqn:Hj'; [|done].
      intros (a & lj & Hr & Hlj)%items_of_Some. exists r, a, lj.
      repeat split; try (by eapply lookup_lt_Some);
        by eapply prefix_lookup_Some. }
    cbn [app]. erewrite bind_Return by (by eapply getitem_Return).
    erewrite bind_Return by (by eapply call_result_Return).
    erewrite bind_Return.
    2:{ unfold deepcopy. cbn [heap]. rewrite Hcopy. reflexivity. }
    unfold range. cbn [length]. rewrite Nat.sub_succ, Nat.sub_0_r.
    rewrite length_app. cbn [length view heap fetched]. fold w1.
    rewrite seq_app. cbn [seq].
    eexists. split.
    + erewrite bind_Raise; [reflexivity|].
      rewrite for_each_app.
      erewrite bind_Return.
      2:{ rewrite (for_each_extend_ext _ _ (j0 :: pre')); [exact Hloop|].
          intros idx [_ Hidx]%elem_of_seq.
          change (j0 :: pre' ++ j :: post) with ((j0 :: pre') ++ j :: post).
          apply lookup_app_l. cbn [length]. lia. }
      cbn [for_each]. erewrite bind_Raise; [reflexivity|].
      erewrite bind_Return.
      2:{ apply (getattr_results_Return _ _ a0 l). cbn [heap].
          etrans; [apply Hframe; lia|done]. }
      erewrite bind_Return.
      2:{ apply getitem_Return.
          change (j0 :: pre' ++ j :: post) with ((j0 :: pre') ++ j :: post).
          apply list_lookup_middle. cbn [length]. lia. }
      unfold bind, call_result. rewrite Hres. reflexivity.
    + cbn [fetched w1]. unfold w1. cbn [fetched].
      rewrite fmap_cons, fmap_app, <- !app_assoc. done.
Qed.

(** X3: when the flag is set and a job of the set has no result, the error
    of that job's [result()] comes out of [combine_results] as it is, a
    [JobError] included; the jobs before it have been fetched, those after
    it have not; the cache stays empty and no object of the store has
    changed. *)
Theorem combine_results_job_failure w pre j post css err :
  _combined_results (view w) = None →
  success (view w) = true →
  jobs (_job_set (view w)) = pre ++ j :: post →
  mapM (job_entries (heap w)) pre = Some css →
  result j = Raise err →
  ∃ w',
    combine_results w = (Raise err, w') ∧
    view w' = view w ∧
    heap w `prefix_of` heap w' ∧
    fetched w' = fetched w ++ (job_id <$> pre ++ [j]).
Proof.
  intros Hcache Hok Hjobs Hpre Hres.
  destruct (combine_results_job_failure_run w pre j post css err)
    as (w' & Hrun & Hf); try done.
  exists w'. pose proof (combine_results_frame_run w _ w' Hrun)
    as (Hp & _ & _ & _ & _ & Hview).
  repeat split; try done. by eapply Hview.
Qed.

(** X10: a failed combination is not remembered.  With the flag set and a
    job without result, every one of [n] calls in a row raises that job's
    error again, and every one of them fetches the jobs up to the failing
    one again; the cache is empty throughout. *)
Theorem combine_results_failure_not_cached w pre j post css err n :
  _combined_results (view w) = None →
  success (view w) = true →
  jobs (_job_set (view w)) = pre ++ j :: post →
  mapM (job_entries (heap w)) pre = Some css →
  result j = Raise err →
  ∃ w',
    repeat_call combine_results n w = (replicate n (Raise err), w') ∧
    view w' = view w ∧
    heap w `prefix_of` heap w' ∧
    fetched w'
    = fetched w ++ concat (replicate n (job_id <$> pre ++ [j])).
Proof.
  intros Hcache Hok Hjobs Hpre Hres. revert w Hcache Hok Hjobs Hpre.
  induction n as [|n IH]; intros w Hcache Hok Hjobs Hpre.
  - exists w. cbn [repeat_call replicate concat].
    by rewrite app_nil_r.
  - destruct (combine_results_job_failure_run w pre j post css err)
      as (w1 & Hrun & Hf1); try done.
    pose proof (combine_results_frame_run w _ w1 Hrun)
      as (Hp1 & _ & _ & _ & _ & Hview).
    specialize (Hview err eq_refl).
    destruct (IH w1) as (w' & Hrest & Hv' & Hp' & Hf'); try congruence.
    { apply mapM_Some. apply mapM_Some in Hpre.
      eapply Forall2_impl; [exact Hpre|]. intros j' cs.
      by apply job_entries_prefix. }
    exists w'. cbn [repeat_call replicate concat]. rewrite Hrun, Hrest.
    repeat split.
    + congruence.
    + by etrans.
    + rewrite Hf', Hf1, <- app_assoc. done.
Qed.

(** *** The first job's header, and one fetch per job *)

Lemma repeat_call_hit w r n :
  _combined_results (view w) = Some r →
  repeat_call combine_results n w = (replicate n (Return r), w).
Proof.
  intros Hcache. induction n as [|n IH]; [done|].
  cbn [repeat_call replicate].
  by rewrite (combine_results_hit w r Hcache), IH.
Qed.

(** X8: the combined result carries the header of the first job's result
    and of no other, and it is a different object from the stored result of
    every job of the set. *)
Theorem combine_results_header w j0 rest a0 cs0 css :
  _combined_results (view w) = None →
  success (view w) = true →
  jobs (_job_set (view w)) = j0 :: rest →
  job_snapshot (heap w) j0 = Some (a0, cs0) →
  mapM (job_entries (heap w)) rest = Some css →
  ∃ r w',
    combine_results w = (Return r, w') ∧
    header_of (heap w') r = Some a0 ∧
    Forall (λ j, result j ≠ Return r) (j0 :: rest).
Proof.
  intros Hcache Hok Hjobs Hj0 Hrest. apply mapM_Some in Hrest.
  destruct (combine_results_sound w j0 rest a0 cs0 css)
    as (l & ys & itss & h' & Hrun & _ & Hl & Hr & _ & _ & _ & _ & _);
    try done.
  eexists (S l), _. split; [exact Hrun|]. cbn [heap]. split.
  - unfold header_of. by rewrite Hr.
  - assert (Forall (λ j, ∃ cs, job_entries (heap w) j = Some cs) (j0 :: rest))
      as Hall.
    { constructor.
      - exists cs0. apply job_snapshot_entries. eauto.
      - apply Forall_forall. intros j' [i Hi]%list_elem_of_lookup.
        destruct (Forall2_lookup_l _ _ _ _ _ Hrest Hi) as (cs & _ & Hcs).
        eauto. }
    eapply Forall_impl; [exact Hall|]. intros j' [cs Hcs] Hsame.
    unfold job_entries in Hcs. rewrite Hsame in Hcs.
    apply entries_of_Some in Hcs as (its & Hits & _).
    apply items_of_Some in Hits as (a & lj & Hold & _).
    apply lookup_lt_Some in Hold. lia.
Qed.

(** X9: on a view without cache whose jobs all hold a result, however many
    calls of [combine_results] follow one another, every call returns the
    same object and each job's [result()] is called exactly once in all, in
    submission order. *)
Theorem combine_results_fetches_once w j0 rest css n :
  _combined_results (view w) = None →
  success (view w) = true →
  jobs (_job_set (view w)) = j0 :: rest →
  mapM (job_entries (heap w)) (j0 :: rest) = Some css →
  ∃ r w',
    repeat_call combine_results (S n) w = (replicate (S n) (Return r), w') ∧
    fetched w' = fetched w ++ (job_id <$> j0 :: rest).
Proof.
  intros Hcache Hok Hjobs Hall. apply mapM_Some in Hall.
  apply Forall2_cons_inv_l in Hall as (cs0 & css' & Hj0 & Hrest & ->).
  apply job_snapshot_entries in Hj0 as [a0 Hj0].
  destruct (combine_results_sound w j0 rest a0 cs0 css')
    as (l & ys & itss & h' & Hrun & _); try done.
  eexists (S l), _. cbn [repeat_call replicate]. rewrite Hrun.
  rewrite (repeat_call_hit _ (S l) n) by done. split; reflexivity.
Qed.

End Frames.

(** ** What the query methods pass on and what they leave alone *)

Section Passing.

Context {Header Entry Value QuantumCircuit Schedule : Type}.
Context `{!@Externals Header Entry Value QuantumCircuit Schedule}.

Implicit Types (w : @world Header Entry QuantumCircuit Schedule).
Implicit Types (e : @Experiment QuantumCircuit Schedule) (j : IBMQJob).

(** X1: an exception raised by the lookup of the job set, such as
    [IBMQJobManagerJobNotFound], comes out of every query method as it is,
    and no job's [result()] is called. *)
Theorem query_lookup_error m w e err :
  job (_job_set (view w)) e = Raise err →
  query m e w = (Raise err, w).
Proof.
  intros Hjob. apply query_Raise.
  unfold _get_result, bind, gets, lift. by rewrite Hjob.
Qed.

(** X2: only a [JobError] is wrapped.  When [result()] of the resolved job
    raises anything else, every query method raises that very exception,
    not [IBMQManagedResultDataNotAvailable]. *)
Theorem query_other_error m w e j i err :
  job (_job_set (view w)) e = Return (Some j, i) →
  result j = Raise err →
  is_JobError err = false →
  query m e w
  = (Raise err,
     {| view := view w; heap := heap w;
        fetched := fetched w ++ [job_id j] |}).
Proof.
  intros Hjob Hres Herr. apply query_Raise.
  unfold _get_result, bind, gets, lift. rewrite Hjob.
  unfold try_except_JobError, call_result. by rewrite Hres, Herr.
Qed.

(** The resolver reads the view, never writes it or the store, and logs at
    most one fetch; what it answers does not depend on the log. *)
Lemma _get_result_read_only e v (h : list (@obj Header Entry)) :
  ∃ o d, length d ≤ 1 ∧
    ∀ f, _get_result e {| view := v; heap := h; fetched := f |}
         = (o, {| view := v; heap := h; fetched := f ++ d |}).
Proof.
  unfold _get_result, bind, gets, lift. cbn [view heap fetched].
  destruct (job (_job_set v) e) as [[[j|] i]|err].
  - unfold try_except_JobError, call_result, ret. cbn [view heap fetched].
    destruct (result j) as [r|err].
    + exists (Return (r, i)), [job_id j]. split; [done|]. done.
    + destruct (is_JobError err).
      * eexists _, [job_id j]. split; [done|]. intros f. reflexivity.
      * exists (Raise err), [job_id j]. split; [done|]. done.
  - eexists _, []. split; [cbn; lia|]. intros f. by rewrite app_nil_r.
  - exists (Raise err), []. split; [cbn; lia|]. intros f.
    by rewrite app_nil_r.
Qed.

Lemma query_read_only m e v (h : list (@obj Header Entry)) :
  ∃ o d, length d ≤ 1 ∧
    ∀ f, query m e {| view := v; heap := h; fetched := f |}
         = (o, {| view := v; heap := h; fetched := f ++ d |}).
Proof.
  destruct (_get_result_read_only e v h) as ([[r i]|err] & d & Hd & Hget).
  - destruct m as [| | |decimals|decimals];
      [exists (Result_data h r i)|exists (Result_get_memory h r i)
      |exists (Result_get_counts h r i)
      |exists (Result_get_statevector h r i decimals)
      |exists (Result_get_unitary h r i decimals)];
      exists d; (split; [done|]); intros f; cbn [query];
      [unfold data|unfold get_memory|unfold get_counts
      |unfold get_statevector|unfold get_unitary];
      by erewrite bind_Return by apply Hget.
  - exists (Raise err), d. split; [done|]. intros f.
    apply query_Raise, Hget.
Qed.

(** X4: a query method changes neither the view, cache included, nor any
    object of the store.  Called [n] times in a row it has the same outcome
    every time, and every call that resolves to a job calls that job's
    [result()] once more: nothing is kept between calls. *)
Theorem query_repeatable m e w n :
  ∃ o d, length d ≤ 1 ∧
    repeat_call (query m e) n w
    = (replicate n o,
       {| view := view w; heap := heap w;
          fetched := fetched w ++ concat (replicate n d) |}).
Proof.
  destruct w as [v h f]. cbn [view heap fetched].
  destruct (query_read_only m e v h) as (o & d & Hd & Hrun).
  exists o, d. split; [done|]. revert f.
  induction n as [|n IH]; intros f.
  - cbn [repeat_call replicate concat]. by rewrite app_nil_r.
  - cbn [repeat_call replicate concat]. rewrite Hrun, IH.
    by rewrite <- app_assoc.
Qed.

(** X7: what a query method answers depends on the job set and on the
    store, not on the flag, the backend name or the cache of the view: an
    experiment of a job that has a result can be read on a view whose flag
    is not set, and a combination made before changes no answer. *)
Theorem query_ignores_flag_and_cache m e js (h : list (@obj Header Entry))
    f name name' ok ok' cached cached' :
  (query m e
     {| view := {| _job_set := js; backend_name := name; success := ok;
                   _combined_results := cached |};
        heap := h; fetched := f |}).1
  = (query m e
       {| view := {| _job_set := js; backend_name := name'; success := ok';
                     _combined_results := cached' |};
          heap := h; fetched := f |}).1.
Proof.
  destruct m; cbn [query];
    [unfold data|unfold get_memory|unfold get_counts
    |unfold get_statevector|unfold get_unitary];
    unfold _get_result, bind, gets, lift; cbn [view heap fetched _job_set];
    destruct (job js e) as [[[j|] i]|err]; try done;
    unfold try_except_JobError, call_result, ret; cbn [view heap fetched];
    destruct (result j) as [r|err]; try done;
    by destruct (is_JobError err).
Qed.

End Passing.

(** ** The further facts on the concrete job set *)

Lemma query_lookup_error_witness :
  query (m_get_statevector None) (by_name "z")
    (Demo.strict_start [Demo.job0; Demo.job1] true)
  = (Raise Demo.not_found, Demo.strict_start [Demo.job0; Demo.job1] true).
Proof.
  apply (query_lookup_error (m_get_statevector None)
           (Demo.strict_start [Demo.job0; Demo.job1] true) (by_name "z")).
  reflexivity.
Defined.

Lemma query_other_error_witness :
  query m_data (by_name "g")
    (Demo.strict_start [Demo.job0; Demo.job3] false)
  = (Raise Demo.interrupted,
     {| view := view (Demo.strict_start [Demo.job0; Demo.job3] false);
        heap := Demo.store; fetched := [] ++ ["job3"] |}).
Proof.
  apply (query_other_error m_data
           (Demo.strict_start [Demo.job0; Demo.job3] false) (by_name "g")
           Demo.job3 0%Z Demo.interrupted);
    reflexivity.
Defined.

Lemma combine_results_job_failure_witness :
  ∃ w',
    combine_results (Demo.start [Demo.job0; Demo.job2; Demo.job1] true)
    = (Raise Demo.failure, w') ∧
    view w' = view (Demo.start [Demo.job0; Demo.job2; Demo.job1] true) ∧
    Demo.store `prefix_of` heap w' ∧
    fetched w' = [] ++ (job_id <$> [Demo.job0] ++ [Demo.job2]).
Proof.
  apply (combine_results_job_failure
           (Demo.start [Demo.job0; Demo.job2; Demo.job1] true)
           [Demo.job0] Demo.job2 [Demo.job1] [["a"; "b"; "c"]]
           Demo.failure);
    reflexivity.
Defined.

Lemma combine_results_failure_not_cached_witness :
  ∃ w',
    repeat_call combine_results 2
      (Demo.start [Demo.job0; Demo.job2; Demo.job1] true)
    = (replicate 2 (Raise Demo.failure), w') ∧
    view w' = view (Demo.start [Demo.job0; Demo.job2; Demo.job1] true) ∧
    Demo.store `prefix_of` heap w' ∧
    fetched w'
    = [] ++ concat (replicate 2 (job_id <$> [Demo.job0] ++ [Demo.job2])).
Proof.
  apply (combine_results_failure_not_cached
           (Demo.start [Demo.job0; Demo.job2; Demo.job1] true)
           [Demo.job0] Demo.job2 [Demo.job1] [["a"; "b"; "c"]]
           Demo.failure 2);
    reflexivity.
Defined.

Lemma combine_results_Return_complete_witness :
  success (view two_jobs) = true ∧
  jobs (_job_set (view two_jobs)) ≠ [] ∧
  Forall (λ j, ∃ rj, result j = Return rj) (jobs (_job_set (view two_jobs))) ∧
  fetched (combine_results two_jobs).2
  = fetched two_jobs ++ (job_id <$> jobs (_job_set (view two_jobs))).
Proof.
  apply (combine_results_Return_complete two_jobs 13
           (combine_results two_jobs).2);
    reflexivity.
Defined.

Lemma combine_results_header_witness :
  ∃ r w',
    combine_results two_jobs = (Return r, w') ∧
    header_of (heap w') r = Some "job0" ∧
    Forall (λ j, result j ≠ Return r) [Demo.job0; Demo.job1].
Proof.
  apply (combine_results_header two_jobs Demo.job0 [Demo.job1] "job0"
           ["a"; "b"; "c"] [["d"; "e"]]);
    reflexivity.
Defined.

Lemma combine_results_fetches_once_witness :
  ∃ r w',
    repeat_call combine_results 3 two_jobs
    = (replicate 3 (Return r), w') ∧
    fetched w' = fetched two_jobs ++ (job_id <$> [Demo.job0; Demo.job1]).
Proof.
  apply (combine_results_fetches_once two_jobs Demo.job0 [Demo.job1]
           [["a"; "b"; "c"]; ["d"; "e"]] 2);
    reflexivity.
Defined.

Lemma query_repeatable_witness :
  ∃ o d, length d ≤ 1 ∧
    repeat_call (query m_get_counts (by_name "d")) 2 two_jobs
    = (replicate 2 o,
       {| view := view two_jobs; heap := heap two_jobs;
          fetched := fetched two_jobs ++ concat (replicate 2 d) |}).
Proof. apply (query_repeatable m_get_counts (by_name "d") two_jobs 2). Defined.

Lemma combine_results_frame_witness :
  heap two_jobs `prefix_of` heap (combine_results two_jobs).2 ∧
  fetched two_jobs `prefix_of` fetched (combine_results two_jobs).2 ∧
  _job_set (view (combine_results two_jobs).2) = _job_set (view two_jobs) ∧
  backend_name (view (combine_results two_jobs).2)
  = backend_name (view two_jobs) ∧
  success (view (combine_results two_jobs).2) = success (view two_jobs) ∧
  (∀ e, (combine_results two_jobs).1 = Raise e →
        view (combine_results two_jobs).2 = view two_jobs).
Proof. apply (combine_results_frame two_jobs). Defined.

Lemma query_ignores_flag_and_cache_witness :
  (query m_data (by_name "e")
     {| view := {| _job_set := Demo.job_set [Demo.job0; Demo.job1];
                   backend_name := "ibmq_qasm_simulator"; success := false;
                   _combined_results := None |};
        heap := Demo.store; fetched := [] |}).1
  = (query m_data (by_name "e")
       {| view := {| _job_set := Demo.job_set [Demo.job0; Demo.job1];
                     backend_name := "ibmq_16_melbourne"; success := true;
                     _combined_results := Some 8 |};
          heap := Demo.store; fetched := [] |}).1.
Proof.
  apply (query_ignores_flag_and_cache m_data (by_name "e")
           (Demo.job_set [Demo.job0; Demo.job1]) Demo.store []).
Defined.
